(** * Project Euler (TypeScript): sorted linked list, prime generator,
      primality test and factor tree

    A shallow embedding of [sorted-linked-list.ts], [problem-3.ts] and
    [problem-4.ts].

    Numbers.  The TypeScript [number]s handled here are integers (primes,
    their multiples, quotients by an exact divisor); they are modelled by
    [Z].  [a % b] is [Z.rem] (sign of the dividend), [a / b] is only used
    after [a % b == 0] and is [Z.quot].  This is what the source computes as
    long as the numbers stay below 2^53, where a [number] holds every
    integer.

    Square roots.  [Math.sqrt] is the correctly rounded root of IEEE 754
    binary64, which can be an integer [q] although [v < q * q]: from 2^52
    on, [Math.sqrt(q * q - 1)] is [q].  [Math.floor(Math.sqrt(v))] is
    [floor_sqrt], which rounds as the source does.  In [isPrime] the test
    [i <= Math.sqrt(v)] is [i * i <= v]: the two differ only where the
    rounded root is [i] itself with [v < i * i], not below 2^52, and then
    the source runs the loop body once more on a value that has no divisor
    up to its root, which does not change the result.

    Loops.  A [while] loop whose number of iterations is not bounded by its
    arguments takes a [fuel]; running out of it is the completion
    [Timeout], kept apart from the values and the errors of the program. *)

From Stdlib Require Import ZArith List Bool Lia Permutation Sorted.
From Stdlib Require Ascii String DecimalString.
Import ListNotations.
Local Open Scope Z_scope.

(** ** Completions of a JavaScript computation *)

Inductive JsError : Type :=
| TypeError.

Inductive completion (A : Type) : Type :=
| Normal (a : A)
| Throw (e : JsError)
| Timeout.

Arguments Normal {A} a.
Arguments Throw {A} e.
Arguments Timeout {A}.

Definition bind {A B : Type} (m : completion A) (k : A -> completion B)
  : completion B :=
  match m with
  | Normal a => k a
  | Throw e => Throw e
  | Timeout => Timeout
  end.

Notation "x <- m ;; k" := (bind m (fun x => k))
  (at level 61, m at next level, right associativity).

(** [r.m()] where the reference [r] may be [undefined]. *)
Definition invoke {A B : Type} (r : option A) (m : A -> B) : completion B :=
  match r with
  | Some o => Normal (m o)
  | None => Throw TypeError
  end.

(** ** sorted-linked-list.ts *)

Module SortedLinkedList.

Section Container.

Context {T : Type}.

(** [interface Comparator<T>] *)
Record Comparator : Type := { compare : T -> T -> Z }.

(** [class SortedLinkedList<T>]: a node holds its comparator, its value and
    its [next] field, which is another node or is unset. *)
Inductive SortedLinkedList : Type :=
| Last (comparator : Comparator) (value : T)
| Node (comparator : Comparator) (value : T) (next : SortedLinkedList).

Definition getComparator (this : SortedLinkedList) : Comparator :=
  match this with
  | Last c _ => c
  | Node c _ _ => c
  end.

Definition getValue (this : SortedLinkedList) : T :=
  match this with
  | Last _ v => v
  | Node _ v _ => v
  end.

Definition getNext (this : SortedLinkedList) : option SortedLinkedList :=
  match this with
  | Last _ _ => None
  | Node _ _ n => Some n
  end.

(** The [while] loop of [insert] and the two assignments after it, seen from
    [previous]; [current] is [previous.next].  The nodes walked over are
    updated in place in the source: the chain returned here is the one
    reachable from [previous] afterwards. *)
Fixpoint splice (c : Comparator) (newValue : T) (previous : SortedLinkedList)
  : SortedLinkedList :=
  match previous with
  | Last k v => Node k v (Last c newValue)
  | Node k v current =>
      if compare c (getValue current) newValue <? 0
      then Node k v (splice c newValue current)
      else Node k v (Node c newValue current)
  end.

Definition insert (this : SortedLinkedList) (newValue : T) : SortedLinkedList :=
  let c := getComparator this in
  if compare c (getValue this) newValue >? 0
  then Node c newValue this
  else splice c newValue this.

(** Sorting with a comparator, as a stable insertion sort: [a] goes behind
    the elements that do not compare greater than it.  For a comparator
    that keeps its contract the stable sorted order is unique, and it is
    the order [Array.prototype.sort] gives to the values it compares. *)
Fixpoint sort_insert (c : Comparator) (a : T) (l : list T) : list T :=
  match l with
  | [] => [a]
  | b :: l' => if compare c b a >? 0 then a :: l else b :: sort_insert c a l'
  end.

Definition sort (c : Comparator) (values : list T) : list T :=
  fold_left (fun acc a => sort_insert c a acc) values [].

(** [values.sort(comparator.compare)]: [Array.prototype.sort] never passes
    [undefined] to the comparator; the values that are [undefined] go behind
    all the others, which are sorted with the comparator.  [isUndefined]
    tells which values of [T] are [undefined]. *)
Definition arraySort (isUndefined : T -> bool) (c : Comparator)
    (values : list T) : list T :=
  sort c (filter (fun v => negb (isUndefined v)) values)
  ++ filter isUndefined values.

(** The [for] loop of [create]: the remaining values are linked behind the
    node of [v]. *)
Fixpoint link (c : Comparator) (v : T) (values : list T) : SortedLinkedList :=
  match values with
  | [] => Last c v
  | w :: ws => Node c v (link c w ws)
  end.

(** [create(comparator, ...values)].  [values.shift()] of an empty array is
    [undefined], and the head node stores it. *)
Definition create (isUndefined : T -> bool) (undefined : T) (c : Comparator)
    (values : list T) : SortedLinkedList :=
  match arraySort isUndefined c values with
  | [] => link c undefined []
  | v :: vs => link c v vs
  end.

(** Reading a chain from its head: [getValue], then [getNext], until [next]
    is unset. *)
Fixpoint elements (l : SortedLinkedList) : list T :=
  match l with
  | Last _ v => [v]
  | Node _ v n => v :: elements n
  end.

(** A container built from a sequence of values: created with the first, the
    others inserted in turn.  The constructor is private, so with no value
    at all there is only [create(comparator)]. *)
Definition build (isUndefined : T -> bool) (undefined : T) (c : Comparator)
    (values : list T) : SortedLinkedList :=
  match values with
  | [] => create isUndefined undefined c []
  | v :: vs => fold_left insert vs (create isUndefined undefined c [v])
  end.

(** The sorted invariant: the comparator is not positive on the values of
    two adjacent nodes. *)
Fixpoint sorted (c : Comparator) (l : SortedLinkedList) : Prop :=
  match l with
  | Last _ _ => True
  | Node _ v n => compare c v (getValue n) <= 0 /\ sorted c n
  end.

(** The same on a plain sequence of values. *)
Fixpoint ascending (c : Comparator) (l : list T) : Prop :=
  match l with
  | [] => True
  | a :: l' =>
      match l' with
      | [] => True
      | b :: _ => compare c a b <= 0 /\ ascending c l'
      end
  end.

(** The contract of the [Comparator] interface ("less than zero if valueA
    is less than valueB, zero if equivalent, greater than zero if
    greater"), as far as the container relies on it. *)
Definition antisymmetric (c : Comparator) : Prop :=
  forall a b, Z.sgn (compare c b a) = - Z.sgn (compare c a b).

Definition transitive (c : Comparator) : Prop :=
  forall a b d, compare c a b <= 0 -> compare c b d <= 0 -> compare c a d <= 0.

(** A comparator that is zero on identical values only. *)
Definition separating (c : Comparator) : Prop :=
  forall a b, compare c a b = 0 -> a = b.

End Container.

Arguments Comparator T : clear implicits.
Arguments SortedLinkedList T : clear implicits.

End SortedLinkedList.

(** ** problem-3.ts *)

Module Problem3.

Import SortedLinkedList.

(** A [number] that may be [NaN]. *)
Inductive JsNumber : Type :=
| NaN
| Num (z : Z).

(** [Math.floor(Math.sqrt(value))].  [Math.sqrt] of a negative number is
    [NaN].  Of a positive integer below 2^53 it is the root rounded to the
    nearest number: [significand * 2^-k] with [significand] of 53 bits,
    which is the integer root [m] of [value * 4^k] or, when the root lies
    beyond [m + 1/2], [m + 1] (a root is never [m + 1/2]: there is no tie).
    [Math.floor] of it is exact.  From 2^53 = 9007199254740992 on a
    [number] holds no longer every integer; there the integer root is
    taken. *)
Definition floor_sqrt (value : Z) : JsNumber :=
  if value <? 0 then NaN
  else if (value =? 0) || (9007199254740992 <=? value)
  then Num (Z.sqrt value)
  else
    let k := 52 - Z.log2 (Z.sqrt value) in
    let scaled := value * 4 ^ k in
    let m := Z.sqrt scaled in
    let significand := if m <? scaled - m * m then m + 1 else m in
    Num (significand / 2 ^ k).

(** *** isPrime *)

(** The [for] loop of [isPrime]; [n] bounds the number of iterations. *)
Fixpoint isPrime_loop (n : nat) (value i : Z) : bool :=
  if i * i <=? value then
    match n with
    | O => true
    | S n' =>
        if (Z.rem value i =? 0) || (Z.rem value (i + 2) =? 0)
        then false
        else isPrime_loop n' value (i + 6)
    end
  else true.

Definition isPrime (value : Z) : bool :=
  if value <? 2 then false
  else if value =? 2 then true
  else if (Z.rem value 2 =? 0) || (Z.rem value 3 =? 0) then false
  else isPrime_loop (Z.to_nat (Z.sqrt value)) value 5.

(** *** multipleGenerator and ValuedIterator *)

(** [multipleGenerator(value, max)] with [max = null], as every call of the
    repository has it: the loop condition is then always true.  The
    generator is either not started or suspended at its [yield]. *)
Inductive MultipleGenerator : Type :=
| MGStart (value : Z)
| MGYield (value multiple : Z).

Definition multipleGenerator (value : Z) : MultipleGenerator := MGStart value.

(** [iter.next()]: the value yielded and the generator suspended again. *)
Definition mg_next (g : MultipleGenerator) : Z * MultipleGenerator :=
  match g with
  | MGStart v => (v, MGYield v v)
  | MGYield v m => (m + v, MGYield v (m + v))
  end.

(** [multipleGenerator(value, max)] with any [max]: not started, suspended
    at its [yield] or finished. *)
Inductive BoundedMultipleGenerator : Type :=
| BMStart (value : Z) (max : option Z)
| BMYield (value : Z) (max : option Z) (multiple : Z)
| BMReturned.

(** [isNullOrUndefined(max) || multiple < max] *)
Definition inRange (max : option Z) (multiple : Z) : bool :=
  match max with
  | None => true
  | Some m => multiple <? m
  end.

(** [next()] of that generator: the value yielded, or [None] at its end. *)
Definition bm_next (g : BoundedMultipleGenerator)
  : option Z * BoundedMultipleGenerator :=
  match g with
  | BMStart v max =>
      if inRange max v then (Some v, BMYield v max v) else (None, BMReturned)
  | BMYield v max m =>
      if inRange max (m + v) then (Some (m + v), BMYield v max (m + v))
      else (None, BMReturned)
  | BMReturned => (None, BMReturned)
  end.


Record ValuedIterator : Type :=
  { iter : MultipleGenerator; currentValue : Z }.

(** [new ValuedIterator(iter)] *)
Definition newValuedIterator (it : MultipleGenerator) : ValuedIterator :=
  let '(v, it') := mg_next it in {| iter := it'; currentValue := v |}.

(** [next()]: the object after the call (the source updates it in place). *)
Definition next (this : ValuedIterator) : ValuedIterator :=
  let '(v, it') := mg_next (iter this) in {| iter := it'; currentValue := v |}.

Definition current (this : ValuedIterator) : Z := currentValue this.

(** *** primeGenerator *)

Definition comparator : Comparator ValuedIterator :=
  {| compare := fun valueA valueB => current valueA - current valueB |}.

(** The unused [undefined] of [create], which is called with three values. *)
Definition noIterator : ValuedIterator :=
  {| iter := MGStart 0; currentValue := 0 |}.

(** A [ValuedIterator] is an object made by [new]: it is never
    [undefined]. *)
Definition isNoIterator (_ : ValuedIterator) : bool := false.

(** [!isNullOrUndefined(maxValue) && value >= maxValue]; a comparison with
    [NaN] is false. *)
Definition passed (maxValue : option JsNumber) (value : Z) : bool :=
  match maxValue with
  | Some (Num m) => m <=? value
  | Some NaN => false
  | None => false
  end.

(** The inner [while] loop.  The head cursor is advanced in place and its
    node is dropped: the cursor is inserted again into the rest of the
    chain, which nothing else refers to. *)
Fixpoint sift (fuel : nat) (value : Z)
  (primeMultipleGenerators : SortedLinkedList ValuedIterator)
  : completion (Z * SortedLinkedList ValuedIterator) :=
  let currentGenerator := getValue primeMultipleGenerators in
  if current currentGenerator <? value then
    match fuel with
    | O => Timeout
    | S fuel' =>
        let bumped := next currentGenerator in
        pmg <- invoke (getNext primeMultipleGenerators)
                 (fun rest => insert rest bumped) ;;
        let value' :=
          if current (getValue pmg) =? value then value + 2 else value in
        sift fuel' value' pmg
    end
  else Normal (value, primeMultipleGenerators).

(** The generator object: not started, suspended at one of its five
    [yield]s with its live variables, or finished. *)
Inductive PrimeGenerator : Type :=
| Start (maxValue : option JsNumber)
| Yield2 (maxValue : option JsNumber) (value : Z)
    (primeMultipleGenerators : SortedLinkedList ValuedIterator)
| Yield3 (maxValue : option JsNumber) (value : Z)
    (primeMultipleGenerators : SortedLinkedList ValuedIterator)
| Yield5 (maxValue : option JsNumber) (value : Z)
    (primeMultipleGenerators : SortedLinkedList ValuedIterator)
| Yield7 (maxValue : option JsNumber) (value : Z)
    (primeMultipleGenerators : SortedLinkedList ValuedIterator)
| YieldValue (maxValue : option JsNumber) (value : Z)
    (primeMultipleGenerators : SortedLinkedList ValuedIterator)
| Returned.

Definition primeGenerator (maxValue : option JsNumber) : PrimeGenerator :=
  Start maxValue.

(** One turn of [while (true)] from its top to the [break] or the [yield]. *)
Definition turn (fuel : nat) (maxValue : option JsNumber) (value : Z)
  (primeMultipleGenerators : SortedLinkedList ValuedIterator)
  : completion (option Z * PrimeGenerator) :=
  r <- sift fuel value primeMultipleGenerators ;;
  let '(value', pmg) := r in
  if passed maxValue value' then Normal (None, Returned)
  else Normal (Some value', YieldValue maxValue value' pmg).

(** [gen.next()]: [Some v] for [{value: v, done: false}], [None] for
    [{done: true}], and the generator afterwards. *)
Definition resume (fuel : nat) (g : PrimeGenerator)
  : completion (option Z * PrimeGenerator) :=
  match g with
  | Start maxValue =>
      let value := 11 in
      let primeMultipleGenerators :=
        create isNoIterator noIterator comparator
          [ newValuedIterator (multipleGenerator 3);
            newValuedIterator (multipleGenerator 5);
            newValuedIterator (multipleGenerator 7) ] in
      Normal (Some 2, Yield2 maxValue value primeMultipleGenerators)
  | Yield2 maxValue value pmg => Normal (Some 3, Yield3 maxValue value pmg)
  | Yield3 maxValue value pmg => Normal (Some 5, Yield5 maxValue value pmg)
  | Yield5 maxValue value pmg => Normal (Some 7, Yield7 maxValue value pmg)
  | Yield7 maxValue value pmg => turn fuel maxValue value pmg
  | YieldValue maxValue value pmg =>
      let newGenerator := newValuedIterator (multipleGenerator value) in
      turn fuel maxValue (value + 2) (insert pmg newGenerator)
  | Returned => Normal (None, Returned)
  end.

(** At most [n] calls of [next()]: the values yielded and the generator
    afterwards. *)
Fixpoint pull (n fuel : nat) (g : PrimeGenerator)
  : completion (list Z * PrimeGenerator) :=
  match n with
  | O => Normal ([], g)
  | S n' =>
      r <- resume fuel g ;;
      match r with
      | (Some v, g') =>
          r' <- pull n' fuel g' ;;
          Normal (v :: fst r', snd r')
      | (None, g') => Normal ([], g')
      end
  end.

(** The first [n] values of the generator. *)
Definition take (n fuel : nat) (g : PrimeGenerator) : completion (list Z) :=
  r <- pull n fuel g ;; Normal (fst r).

(** [for (let prime of g)] run to the end of the generator, the values
    collected. *)
Fixpoint forOf (n fuel : nat) (g : PrimeGenerator) : completion (list Z) :=
  match n with
  | O => Timeout
  | S n' =>
      r <- resume fuel g ;;
      match r with
      | (Some v, g') => vs <- forOf n' fuel g' ;; Normal (v :: vs)
      | (None, _) => Normal []
      end
  end.

(** *** primeFactors *)

(** [result.length == 0 || result[result.length - 1] != value] *)
Definition mayPush (result : list Z) (value : Z) : bool :=
  match result with
  | [] => true
  | _ :: _ => negb (last result 0 =? value)
  end.

(** The [for ... of] loop of [primeFactors] up to its [return]: the first
    prime of the generator with [value % prime == 0], or nothing when the
    generator ends first. *)
Fixpoint firstDivisor (n fuel : nat) (g : PrimeGenerator) (value : Z)
  : completion (option Z) :=
  match n with
  | O => Timeout
  | S n' =>
      r <- resume fuel g ;;
      match r with
      | (Some prime, g') =>
          if Z.rem value prime =? 0 then Normal (Some prime)
          else firstDivisor n' fuel g' value
      | (None, _) => Normal None
      end
  end.

(** [primeFactors(value, existingFactors)]; [None] is the [undefined] that
    falling off the end of the function returns. *)
Fixpoint primeFactors (fuel : nat) (value : Z) (existingFactors : list Z)
  : completion (option (list Z)) :=
  match fuel with
  | O => Timeout
  | S fuel' =>
      if value =? 1 then Normal (Some existingFactors)
      else
        let result := existingFactors in
        if isPrime value then
          Normal (Some (if mayPush result value then result ++ [value]
                        else result))
        else
          d <- firstDivisor fuel' fuel'
                 (primeGenerator (Some (floor_sqrt value))) value ;;
          match d with
          | Some prime =>
              primeFactors fuel' (Z.quot value prime)
                (if mayPush result value then result ++ [prime] else result)
          | None => Normal None
          end
  end.

End Problem3.

(** ** problem-3.ts, [class Problem3] *)

Module Problem3Class.

Import SortedLinkedList Problem3.

(** [private static value] *)
Definition value : Z := 600851475143.

(** The [for ... of] loop of [bruteForce], run to the end of the generator:
    [lastFactor] is the last prime given that divides [value]. *)
Fixpoint lastDivisor (n fuel : nat) (g : PrimeGenerator) (value lastFactor : Z)
  : completion Z :=
  match n with
  | O => Timeout
  | S n' =>
      r <- resume fuel g ;;
      match r with
      | (Some prime, g') =>
          lastDivisor n' fuel g' value
            (if Z.rem value prime =? 0 then prime else lastFactor)
      | (None, _) => Normal lastFactor
      end
  end.

(** [bruteForce()] for any content of the static field [value]: the
    [lastFactor] that is logged. *)
Definition bruteForceOf (fuel : nat) (value : Z) : completion Z :=
  let maxFactor := floor_sqrt value in
  let lastFactor := 0 in
  lastDivisor fuel fuel (primeGenerator (Some maxFactor)) value lastFactor.

Definition bruteForce (fuel : nat) : completion Z := bruteForceOf fuel value.

(** [factors.pop()]: the last element, [undefined] for an empty array. *)
Definition pop (factors : list Z) : option Z :=
  match factors with
  | [] => None
  | _ :: _ => Some (last factors 0)
  end.

(** [primeFactorTree()] for any content of [value]: what [factors.pop()]
    gives to the log; [pop] of the [undefined] that [primeFactors] may
    return is a [TypeError]. *)
Definition primeFactorTreeOf (fuel : nat) (value : Z) : completion (option Z) :=
  factors <- primeFactors fuel value [] ;;
  invoke factors pop.

Definition primeFactorTree (fuel : nat) : completion (option Z) :=
  primeFactorTreeOf fuel value.

End Problem3Class.

(** ** problem-4.ts *)

Module Problem4.

(** [private static maxValue] *)
Definition maxValue : Z := 999.

(** [value.toString(10)] of an integer, as its characters. *)
Definition toString (value : Z) : list Ascii.ascii :=
  String.list_ascii_of_string
    (DecimalString.NilZero.string_of_int (Z.to_int value)).

(** [a != b] on characters of a string; [None] is the [undefined] that an
    index out of the string gives. *)
Definition differ (a b : option Ascii.ascii) : bool :=
  match a, b with
  | Some x, Some y => negb (Ascii.eqb x y)
  | None, None => false
  | _, _ => true
  end.

(** The [for] loop of [isPalindrome] from [i] on, [n] turns of it. *)
Fixpoint isPalindrome_loop (n : nat) (strValue : list Ascii.ascii) (i : nat)
  : bool :=
  match n with
  | O => true
  | S n' =>
      if differ (nth_error strValue i)
                (nth_error strValue (length strValue - i - 1))
      then false
      else isPalindrome_loop n' strValue (S i)
  end.

(** The loop runs for [i = 0, ..., floor(length / 2)]. *)
Definition isPalindromeString (strValue : list Ascii.ascii) : bool :=
  isPalindrome_loop (S (length strValue / 2)) strValue 0.

Definition isPalindrome (value : Z) : bool :=
  isPalindromeString (toString value).

(** The values of [decendingGenerator(maxValue)]; [n] bounds the turns of
    its loop, which [maxValue] itself bounds. *)
Fixpoint decending (n : nat) (maxValue : Z) : list Z :=
  match n with
  | O => []
  | S n' =>
      if maxValue >? 0 then maxValue :: decending n' (maxValue - 1) else []
  end.

Definition decendingGenerator (maxValue : Z) : list Z :=
  decending (Z.to_nat maxValue) maxValue.

(** The inner loop of [bruteForce]: the first palindrome [i * j], if any. *)
Fixpoint innerLoop (i : Z) (js : list Z) : option Z :=
  match js with
  | [] => None
  | j :: js' =>
      let value := i * j in
      if isPalindrome value then Some value else innerLoop i js'
  end.

(** The outer loop, left by [break outerLoop] at the first palindrome;
    [maxPalindrome] is 0 when there is none. *)
Fixpoint outerLoop (candidates : list Z) : Z :=
  match candidates with
  | [] => 0
  | i :: candidates' =>
      match innerLoop i (decendingGenerator i) with
      | Some value => value
      | None => outerLoop candidates'
      end
  end.

(** [bruteForce()] for any content of [maxValue]: the [maxPalindrome] that
    is logged. *)
Definition bruteForceOf (maxValue : Z) : Z :=
  outerLoop (decendingGenerator maxValue).

Definition bruteForce : Z := bruteForceOf maxValue.

End Problem4.

Import SortedLinkedList Problem3.

(** * Specification *)

(** The notions that the properties below are stated with. *)

(** The first prime from [n] on. *)
Definition first_prime_from (n p : Z) : Prop :=
  Z.prime p /\ n <= p /\ forall m, n <= m < p -> ~ Z.prime m.

(** Trial division: no integer of [[2, sqrt n]] divides [n]. *)
Definition trial_division (n : Z) : Prop :=
  forall d, 2 <= d -> d * d <= n -> ~ (d | n).

(** Every node of a chain holds the comparator [k]. *)
Fixpoint uniform {T : Type} (k : Comparator T) (l : SortedLinkedList T) : Prop :=
  match l with
  | Last k' _ => k' = k
  | Node k' _ n => k' = k /\ uniform k n
  end.

(** The number whose multiples a cursor runs through. *)
Definition base (c : ValuedIterator) : Z :=
  match iter c with
  | MGStart v => v
  | MGYield v _ => v
  end.

(** A cursor of the sieve while [value] is the candidate: it runs through
    the multiples of a prime below [value], and has not skipped a multiple
    from [value] on. *)
Definition cursor_ok (value : Z) (c : ValuedIterator) : Prop :=
  iter c = MGYield (base c) (current c) /\
  Z.prime (base c) /\ 3 <= base c < value /\
  (base c | current c) /\ 0 < current c < value + base c.

(** The chain of cursors while [value] is the candidate. *)
Definition sieve_inv (value : Z) (l : SortedLinkedList ValuedIterator) : Prop :=
  11 <= value /\ (exists k, value = 2 * k + 1) /\
  uniform comparator l /\ sorted comparator l /\
  (2 <= length (elements l))%nat /\
  Forall (cursor_ok value) (elements l) /\
  (forall q, Z.prime q -> 3 <= q < value ->
     exists c, In c (elements l) /\ base c = q).

(** What is left for the cursors to run before they are all past [p]. *)
Definition slack (p : Z) (cs : list ValuedIterator) : Z :=
  fold_right (fun c acc => (p + base c - current c) + acc) 0 cs.

(** The chain that [primeGenerator] starts from. *)
Definition seedGenerators : SortedLinkedList ValuedIterator :=
  create isNoIterator noIterator comparator
    [ newValuedIterator (multipleGenerator 3);
      newValuedIterator (multipleGenerator 5);
      newValuedIterator (multipleGenerator 7) ].

(** From where on the next value of a generator is looked for. *)
Definition lower (g : PrimeGenerator) : Z :=
  match g with
  | Start _ => 2
  | Yield2 _ _ _ => 3
  | Yield3 _ _ _ => 4
  | Yield5 _ _ _ => 6
  | Yield7 _ _ _ => 8
  | YieldValue _ value _ => value + 1
  | Returned => 0
  end.

(** The [maxValue] of a generator. *)
Definition limit (g : PrimeGenerator) : option JsNumber :=
  match g with
  | Start m | Yield2 m _ _ | Yield3 m _ _ | Yield5 m _ _ | Yield7 m _ _
  | YieldValue m _ _ => m
  | Returned => None
  end.

(** The generator is inside its [while (true)] loop. *)
Definition in_loop (g : PrimeGenerator) : Prop :=
  match g with
  | Yield7 _ _ _ | YieldValue _ _ _ => True
  | _ => False
  end.

(** The states a generator goes through. *)
Definition gen_inv (g : PrimeGenerator) : Prop :=
  match g with
  | Start _ | Returned => True
  | Yield2 _ value l | Yield3 _ value l | Yield5 _ value l
  | Yield7 _ value l => value = 11 /\ l = seedGenerators
  | YieldValue _ value l => sieve_inv value l /\ value < current (getValue l)
  end.

(** [array.reduce((a, b) => a * b, 1)] *)
Definition product (factors : list Z) : Z := fold_right Z.mul 1 factors.

(** The factors found so far are not above any prime factor that is left. *)
Definition below (factors : list Z) (value : Z) : Prop :=
  forall a q, In a factors -> Z.prime q -> (q | value) -> a <= q.

(** The comparator [(a, b) => a - b] on numbers. *)
Definition numeric : Comparator Z :=
  {| compare := fun a b => a - b |}.

(** The same on numbers that may be [undefined]: a difference with
    [undefined] is [NaN], which is neither above nor below zero. *)
Definition numericOrUndefined : Comparator (option Z) :=
  {| compare := fun a b =>
       match a, b with
       | Some x, Some y => x - y
       | _, _ => 0
       end |}.

(** Which of them is [undefined]. *)
Definition isNone (a : option Z) : bool :=
  match a with
  | None => true
  | Some _ => false
  end.

(** A comparator on them that ranks [undefined] before every number. *)
Definition undefinedFirst : Comparator (option Z) :=
  {| compare := fun a b =>
       match a, b with
       | Some x, Some y => x - y
       | None, Some _ => -1
       | Some _, None => 1
       | None, None => 0
       end |}.

(** Numbers, and pairs of numbers, are all defined. *)
Definition isNotNumber (_ : Z) : bool := false.

Definition isNotPair (_ : Z * Z) : bool := false.

(** A comparator on the first component of pairs, as [comparator] is on
    the current value of a cursor. *)
Definition byKey : Comparator (Z * Z) :=
  {| compare := fun a b => fst a - fst b |}.


(** The number of values that a generator has given so far, read off the
    place where it is suspended and, in the loop, off its chain. *)
Definition given (g : PrimeGenerator) : nat :=
  match g with
  | Start _ | Returned => 0
  | Yield2 _ _ _ => 1
  | Yield3 _ _ _ => 2
  | Yield5 _ _ _ => 3
  | Yield7 _ _ _ => 4
  | YieldValue _ _ l => 2 + length (elements l)
  end.

(** Before the loop the chain holds the three seed cursors. *)
Definition seeded (g : PrimeGenerator) : Prop :=
  match g with
  | Yield2 _ _ l | Yield3 _ _ l | Yield5 _ _ l | Yield7 _ _ l =>
      length (elements l) = 3%nat
  | _ => True
  end.

(** The general generator with [max = null] is the generator of the
    cursors. *)
Definition unbounded (g : MultipleGenerator) : BoundedMultipleGenerator :=
  match g with
  | MGStart v => BMStart v None
  | MGYield v m => BMYield v None m
  end.

(** [maxFactor] of [bruteForce] for a [value] that is not negative. *)
Definition maxFactor (value : Z) : Z :=
  match floor_sqrt value with
  | Num bound => bound
  | NaN => 0
  end.

(** The primes that [bruteForce] tries on [value]: the four seeds and the
    primes below [maxFactor]. *)
Definition tried (value p : Z) : Prop :=
  Z.prime p /\ (p < 11 \/ p < maxFactor value).

(** * Properties *)

(** ** The sorted linked list *)

Section ContainerFacts.

Context {T : Type}.

Implicit Types (c : Comparator T) (l this : SortedLinkedList T) (v : T).

(** The signs of [x] and [y], related by [H], case by case. *)
Ltac sign_cases H x y :=
  let E := fresh "E" in
  let F := fresh "F" in
  destruct (Z.sgn_spec x) as [[? E]|[[? E]|[? E]]];
  destruct (Z.sgn_spec y) as [[? F]|[[? F]|[? F]]];
  rewrite E, F in H; lia.

Lemma antisymmetric_ge c a b :
  antisymmetric c -> 0 <= compare c a b -> compare c b a <= 0.
Proof.
  intros H Hab. specialize (H a b).
  sign_cases H (compare c a b) (compare c b a).
Qed.

Lemma antisymmetric_lt c a b :
  antisymmetric c -> compare c a b < 0 -> 0 < compare c b a.
Proof.
  intros H Hab. specialize (H a b).
  sign_cases H (compare c a b) (compare c b a).
Qed.

Lemma getValue_head l : exists tl, elements l = getValue l :: tl.
Proof. destruct l; simpl; eauto. Qed.

Lemma sorted_ascending c l : sorted c l <-> ascending c (elements l).
Proof.
  induction l as [k v|k v n IH]; simpl; [tauto|].
  destruct (getValue_head n) as [tl E]. rewrite E in *. simpl in *.
  tauto.
Qed.

Lemma getComparator_splice c v l :
  getComparator (splice c v l) = getComparator l.
Proof. destruct l; simpl; [|destruct (_ <? _)]; reflexivity. Qed.

Lemma getValue_splice c v l : getValue (splice c v l) = getValue l.
Proof. destruct l; simpl; [|destruct (_ <? _)]; reflexivity. Qed.

Lemma getComparator_insert this v :
  getComparator (insert this v) = getComparator this.
Proof.
  unfold insert. destruct (_ >? _); simpl; auto using getComparator_splice.
Qed.

Lemma elements_splice c v l :
  Permutation (elements (splice c v l)) (v :: elements l).
Proof.
  induction l as [k w|k w n IH]; simpl.
  - apply perm_swap.
  - destruct (_ <? _); simpl.
    + rewrite IH. apply perm_swap.
    + apply perm_swap.
Qed.

Lemma elements_insert this v :
  Permutation (elements (insert this v)) (v :: elements this).
Proof.
  unfold insert. destruct (_ >? _); simpl; auto using elements_splice.
Qed.

Lemma sorted_splice c v l :
  antisymmetric c -> sorted c l -> compare c (getValue l) v <= 0 ->
  sorted c (splice c v l).
Proof.
  intros Hc. induction l as [k w|k w n IH]; simpl; intros Hs Hv.
  - split; [exact Hv|exact I].
  - destruct Hs as [Hwn Hs].
    destruct (Z.ltb_spec (compare c (getValue n) v) 0) as [Hlt|Hge]; simpl.
    + rewrite getValue_splice. split; [exact Hwn|]. apply IH; [exact Hs|lia].
    + repeat split; auto using antisymmetric_ge.
Qed.

Lemma sorted_insert this v :
  antisymmetric (getComparator this) ->
  sorted (getComparator this) this ->
  sorted (getComparator this) (insert this v).
Proof.
  intros Hc Hs. unfold insert.
  destruct (Z.gtb_spec (compare (getComparator this) (getValue this) v) 0)
    as [Hgt|Hle]; simpl.
  - split; [apply antisymmetric_ge; [exact Hc|lia]|exact Hs].
  - apply sorted_splice; assumption.
Qed.

(** *** [sort] and [create] *)

Lemma sort_insert_perm c a (xs : list T) :
  Permutation (sort_insert c a xs) (a :: xs).
Proof.
  induction xs as [|b xs IH]; simpl; [reflexivity|].
  destruct (_ >? _); [reflexivity|]. rewrite IH. apply perm_swap.
Qed.

Lemma sort_perm_acc c values acc :
  Permutation (fold_left (fun acc a => sort_insert c a acc) values acc)
    (values ++ acc).
Proof.
  revert acc. induction values as [|a values IH]; intros acc; simpl.
  - reflexivity.
  - rewrite IH, sort_insert_perm. symmetry. apply Permutation_middle.
Qed.

Lemma sort_perm c values : Permutation (sort c values) values.
Proof.
  unfold sort. rewrite sort_perm_acc, app_nil_r. reflexivity.
Qed.

Lemma ascending_cons c a (xs : list T) :
  ascending c (a :: xs) <->
  match xs with [] => True | b :: _ => compare c a b <= 0 end /\ ascending c xs.
Proof. destruct xs; simpl; tauto. Qed.

Lemma sort_insert_ascending c a (xs : list T) :
  antisymmetric c -> ascending c xs -> ascending c (sort_insert c a xs).
Proof.
  intros Hc. induction xs as [|b xs IH]; intros Hl; [exact I|].
  cbn [sort_insert].
  destruct (Z.gtb_spec (compare c b a) 0) as [Hgt|Hle].
  - apply ascending_cons.
    split; [apply antisymmetric_ge; [exact Hc|lia]|exact Hl].
  - apply ascending_cons in Hl. destruct Hl as [Hhd Hl].
    apply ascending_cons. split; [|auto].
    destruct xs as [|b' xs]; cbn [sort_insert]; [exact Hle|].
    destruct (_ >? _); assumption.
Qed.

Lemma sort_ascending_acc c values acc :
  antisymmetric c -> ascending c acc ->
  ascending c (fold_left (fun acc a => sort_insert c a acc) values acc).
Proof.
  intros Hc. revert acc.
  induction values as [|a values IH]; intros acc Hacc; simpl;
    auto using sort_insert_ascending.
Qed.

Lemma sort_ascending c values : antisymmetric c -> ascending c (sort c values).
Proof. intros Hc. apply sort_ascending_acc; [exact Hc|exact I]. Qed.

Lemma elements_link c v values : elements (link c v values) = v :: values.
Proof.
  revert v. induction values as [|w ws IH]; intros v; simpl;
    [|rewrite IH]; reflexivity.
Qed.

Lemma getComparator_link c v values : getComparator (link c v values) = c.
Proof. destruct values; reflexivity. Qed.

Lemma arraySort_perm isUndefined c values :
  Permutation (arraySort isUndefined c values) values.
Proof.
  unfold arraySort. rewrite sort_perm.
  induction values as [|a values IH]; simpl; [reflexivity|].
  destruct (isUndefined a); simpl.
  - symmetry. apply Permutation_cons_app. symmetry. exact IH.
  - apply perm_skip. exact IH.
Qed.

Lemma filter_defined isUndefined (values : list T) :
  Forall (fun v => isUndefined v = false) values ->
  filter (fun v => negb (isUndefined v)) values = values /\
  filter isUndefined values = [].
Proof.
  induction 1 as [|a values Ha _ [IH1 IH2]]; simpl; [auto|].
  rewrite Ha. simpl. rewrite IH1, IH2. auto.
Qed.

Lemma arraySort_defined isUndefined c values :
  Forall (fun v => isUndefined v = false) values ->
  arraySort isUndefined c values = sort c values.
Proof.
  intros H. destruct (filter_defined isUndefined values H) as [H1 H2].
  unfold arraySort. rewrite H1, H2. apply app_nil_r.
Qed.

Lemma elements_create isUndefined undefined c values :
  values <> [] ->
  elements (create isUndefined undefined c values)
  = arraySort isUndefined c values.
Proof.
  intros Hne. unfold create.
  destruct (arraySort isUndefined c values) as [|v vs] eqn:E.
  - exfalso. apply Hne.
    apply Permutation_nil. rewrite <- E. apply arraySort_perm.
  - apply elements_link.
Qed.

Lemma create_one isUndefined undefined c (v : T) :
  create isUndefined undefined c [v] = Last c v.
Proof.
  unfold create, arraySort. simpl. destruct (isUndefined v); reflexivity.
Qed.

Lemma getComparator_create isUndefined undefined c values :
  getComparator (create isUndefined undefined c values) = c.
Proof.
  unfold create. destruct (arraySort isUndefined c values);
    apply getComparator_link.
Qed.

(** *** [build] *)

Lemma fold_insert_spec c values l :
  antisymmetric c -> getComparator l = c -> sorted c l ->
  let l' := fold_left insert values l in
  getComparator l' = c /\ sorted c l' /\
  Permutation (elements l') (values ++ elements l).
Proof.
  intros Hc. revert l.
  induction values as [|a values IH]; intros l Hl Hs; simpl.
  - auto.
  - destruct (IH (insert l a)) as (H1 & H2 & H3).
    + rewrite getComparator_insert. exact Hl.
    + rewrite <- Hl. apply sorted_insert; rewrite Hl; assumption.
    + repeat split; [exact H1|exact H2|].
      rewrite H3, elements_insert. symmetry. apply Permutation_middle.
Qed.

Lemma build_spec isUndefined undefined c values :
  antisymmetric c -> values <> [] ->
  ascending c (elements (build isUndefined undefined c values)) /\
  Permutation (elements (build isUndefined undefined c values)) values.
Proof.
  intros Hc Hne. destruct values as [|v vs]; [congruence|]. unfold build.
  rewrite create_one.
  destruct (fold_insert_spec c vs (Last c v) Hc) as (_ & H2 & H3).
  - reflexivity.
  - exact I.
  - split; [apply sorted_ascending; exact H2|].
    rewrite H3. cbn [elements].
    rewrite Permutation_app_comm. reflexivity.
Qed.

(** *** Two ascending sequences of one multiset *)

Lemma compare_refl c a : antisymmetric c -> compare c a a = 0.
Proof.
  intros H. specialize (H a a). apply Z.sgn_null_iff. lia.
Qed.

Lemma compare_zero_iff c a b :
  antisymmetric c ->
  compare c a b = 0 <-> compare c a b <= 0 /\ compare c b a <= 0.
Proof.
  intros H. split.
  - intros E. split; [lia|]. apply antisymmetric_ge; [exact H|lia].
  - intros [H1 H2].
    destruct (Z.eq_dec (compare c a b) 0) as [E|E]; [exact E|].
    assert (0 < compare c b a) by (apply antisymmetric_lt; [exact H|lia]).
    lia.
Qed.

Lemma compare_zero_trans c a b d :
  antisymmetric c -> transitive c ->
  compare c a b = 0 -> compare c b d = 0 -> compare c a d = 0.
Proof.
  intros Ha Ht H1 H2.
  apply compare_zero_iff in H1; [|exact Ha].
  apply compare_zero_iff in H2; [|exact Ha].
  apply compare_zero_iff; [exact Ha|].
  split; eapply Ht; try apply H1; try apply H2.
Qed.

Lemma compare_zero_sym c a b :
  antisymmetric c -> compare c a b = 0 -> compare c b a = 0.
Proof.
  intros Ha H. apply compare_zero_iff in H; [|exact Ha].
  apply compare_zero_iff; tauto.
Qed.

Lemma ascending_tail c a (xs : list T) : ascending c (a :: xs) -> ascending c xs.
Proof. intros H. apply ascending_cons in H. tauto. Qed.

Lemma ascending_least c a (xs : list T) :
  transitive c -> ascending c (a :: xs) ->
  Forall (fun b => compare c a b <= 0) xs.
Proof.
  intros Ht. revert a. induction xs as [|b xs IH]; intros a H; [constructor|].
  destruct H as [Hab H]. constructor; [exact Hab|].
  eapply Forall_impl; [|apply IH; exact H].
  intros d Hd. simpl in Hd. eapply Ht; eassumption.
Qed.

(** Two ascending sequences that are rearrangements of each other, up to
    values on which the comparator is zero, agree position by position up
    to such values. *)
Lemma ascending_unique_upto c (xs ys : list T) :
  antisymmetric c -> transitive c ->
  ascending c xs -> ascending c ys ->
  (exists zs, Permutation xs zs /\
     Forall2 (fun x y => compare c x y = 0) zs ys) ->
  Forall2 (fun x y => compare c x y = 0) xs ys.
Proof.
  intros Ha Ht. revert ys.
  induction xs as [|a xs IH]; intros ys Hxs Hys (zs & Hp & Hz).
  - apply Permutation_nil in Hp. subst zs. exact Hz.
  - destruct zs as [|b' zs];
      [apply Permutation_sym, Permutation_nil in Hp; discriminate|].
    inversion Hz as [|? b ? ys' Hbb Hzs]; subst.
    pose proof (ascending_least c a xs Ht Hxs) as La.
    pose proof (ascending_least c b ys' Ht Hys) as Lb.
    assert (Hin : In a (b' :: zs)).
    { eapply Permutation_in; [exact Hp|]. left. reflexivity. }
    destruct Hin as [E|Hin].
    + subst b'. constructor; [exact Hbb|].
      apply IH; eauto using ascending_tail.
      exists zs. split; [|exact Hzs]. eapply Permutation_cons_inv. exact Hp.
    + destruct (in_split _ _ Hin) as (s1 & s2 & ->).
      apply Forall2_app_inv_l in Hzs.
      destruct Hzs as (u1 & u2' & Hs1 & Hs2 & ->).
      inversion Hs2 as [|? y ? u2 Hay Hs2']; subst.
      assert (Hab' : compare c a b' <= 0).
      { assert (Hb' : In b' (a :: xs)).
        { eapply Permutation_in; [symmetry; exact Hp|]. left. reflexivity. }
        destruct Hb' as [->|Hb'].
        - rewrite compare_refl; [lia|exact Ha].
        - rewrite Forall_forall in La. auto. }
      assert (Hby : compare c b y <= 0).
      { rewrite Forall_forall in Lb. apply Lb. apply in_or_app. right. left.
        reflexivity. }
      assert (Hab : compare c a b = 0).
      { apply compare_zero_iff; [exact Ha|]. split.
        - eapply Ht; [exact Hab'|]. rewrite Hbb. lia.
        - eapply Ht; [exact Hby|].
          apply compare_zero_sym in Hay; [lia|exact Ha]. }
      constructor; [exact Hab|].
      apply IH; eauto using ascending_tail.
      exists (s1 ++ b' :: s2). split.
      * apply Permutation_cons_inv with (a := a).
        rewrite Hp.
        transitivity (b' :: a :: s1 ++ s2);
          [apply perm_skip; symmetry; apply Permutation_middle|].
        rewrite perm_swap. apply perm_skip. apply Permutation_middle.
      * apply Forall2_app; [exact Hs1|]. constructor; [|exact Hs2'].
        eapply compare_zero_trans; eauto.
        eapply compare_zero_trans; eauto using compare_zero_sym.
Qed.

Lemma Forall2_refl_zero c (xs : list T) :
  antisymmetric c -> Forall2 (fun x y => compare c x y = 0) xs xs.
Proof.
  intros Ha. induction xs; constructor; auto using compare_refl.
Qed.

Lemma Forall2_separating c (xs ys : list T) :
  separating c -> Forall2 (fun x y => compare c x y = 0) xs ys -> xs = ys.
Proof.
  intros Hs H. induction H as [|x y xs ys E _ IH]; [reflexivity|].
  rewrite (Hs _ _ E), IH. reflexivity.
Qed.

End ContainerFacts.

(** ** Arithmetic used by the sieve *)

Section Arithmetic.

Lemma prime_dec (p : Z) : {Z.prime p} + {~ Z.prime p}.
Proof.
  destruct (Znumtheory.prime_dec p) as [H|H].
  - left. apply Znumtheory.prime_alt. exact H.
  - right. intros Hp. apply H. apply Znumtheory.prime_alt. exact Hp.
Defined.

Lemma not_prime_divisor (n : Z) :
  1 < n -> ~ Z.prime n -> exists d, 1 < d < n /\ (d | n).
Proof.
  intros Hn Hp. apply Znumtheory.not_prime_divide; [exact Hn|].
  intros H. apply Hp. apply Znumtheory.prime_alt. exact H.
Qed.

Lemma prime_divisor (n : Z) : 1 < n -> exists p, Z.prime p /\ (p | n).
Proof.
  intros Hn.
  assert (H : forall k, 0 <= k -> forall m, 1 < m <= k ->
              exists p, Z.prime p /\ (p | m)).
  { intros k Hk. pattern k. apply natlike_ind; [intros; lia| |exact Hk].
    clear. intros k Hk IH m Hm.
    destruct (prime_dec m) as [Hp|Hp].
    - exists m. split; [exact Hp|apply Z.divide_refl].
    - destruct (not_prime_divisor m) as (d & Hd & Hdm); [lia|exact Hp|].
      destruct (IH d) as (p & Hp1 & Hp2); [lia|].
      exists p. split; [exact Hp1|]. eapply Z.divide_trans; eassumption. }
  apply (H n); lia.
Qed.

(** A number that is not prime has a prime divisor below its square root. *)
Lemma small_prime_divisor (n : Z) :
  1 < n -> ~ Z.prime n -> exists p, Z.prime p /\ (p | n) /\ p * p <= n.
Proof.
  intros Hn Hp.
  destruct (not_prime_divisor n Hn Hp) as (d & Hd & m & Hm).
  assert (Hm1 : 1 < m) by nia.
  destruct (Z_le_gt_dec d m) as [Hle|Hgt].
  - destruct (prime_divisor d) as (p & Hp1 & Hp2); [lia|].
    exists p. split; [exact Hp1|split].
    + apply Z.divide_trans with d; [exact Hp2|]. exists m. exact Hm.
    + pose proof (Z.prime_ge_2 p Hp1).
      assert (p <= d) by (apply Z.divide_pos_le; [lia|exact Hp2]). nia.
  - destruct (prime_divisor m) as (p & Hp1 & Hp2); [lia|].
    exists p. split; [exact Hp1|split].
    + apply Z.divide_trans with m; [exact Hp2|]. exists d. lia.
    + pose proof (Z.prime_ge_2 p Hp1).
      assert (p <= m) by (apply Z.divide_pos_le; [lia|exact Hp2]). nia.
Qed.

Lemma divide_fact (n : nat) (k : Z) :
  1 <= k <= Z.of_nat n -> (k | Z.of_nat (fact n)).
Proof.
  induction n as [|n IH]; intros Hk; [lia|].
  change (fact (S n)) with (S n * fact n)%nat. rewrite Nat2Z.inj_mul.
  destruct (Z.eq_dec k (Z.of_nat (S n))) as [->|Hne].
  - apply Z.divide_factor_l.
  - apply Z.divide_mul_r. apply IH. lia.
Qed.

(** Euclid: there is a prime above every number. *)
Lemma prime_above (n : Z) : exists p, Z.prime p /\ n <= p.
Proof.
  set (N := Z.of_nat (fact (Z.to_nat n)) + 1).
  assert (HN : 1 < N).
  { unfold N. pose proof (lt_O_fact (Z.to_nat n)). lia. }
  destruct (prime_divisor N HN) as (p & Hp & Hd).
  exists p. split; [exact Hp|].
  destruct (Z_le_gt_dec n p) as [Hle|Hgt]; [exact Hle|exfalso].
  pose proof (Z.prime_ge_2 p Hp).
  assert (Hf : (p | Z.of_nat (fact (Z.to_nat n)))) by (apply divide_fact; lia).
  assert (H1 : (p | 1)).
  { replace 1 with (N - Z.of_nat (fact (Z.to_nat n))) by (unfold N; lia).
    apply Z.divide_sub_r; assumption. }
  apply Z.divide_1_r_nonneg in H1; lia.
Qed.

Lemma first_prime_from_exists (n : Z) : exists p, first_prime_from n p.
Proof.
  destruct (prime_above n) as (q & Hq & Hnq).
  assert (H : forall k, 0 <= k -> forall n, q - n <= k -> n <= q ->
              exists p, first_prime_from n p).
  { intros k Hk. pattern k. apply natlike_ind; [| |exact Hk]; clear - Hq.
    - intros m Hm Hle. assert (m = q) by lia. subst m.
      exists q. split; [exact Hq|split; [lia|intros; lia]].
    - intros k Hk IH m Hm Hle.
      destruct (prime_dec m) as [Hp|Hp].
      + exists m. split; [exact Hp|split; [lia|intros; lia]].
      + assert (m <> q) by (intros ->; contradiction).
        destruct (IH (m + 1)) as (p & Hp1 & Hp2 & Hp3); [lia|lia|].
        exists p. split; [exact Hp1|split; [lia|]].
        intros j Hj. destruct (Z.eq_dec j m) as [->|Hne]; [exact Hp|].
        apply Hp3. lia. }
  apply (H (Z.abs (q - n))); lia.
Qed.

Lemma first_prime_from_unique (n p q : Z) :
  first_prime_from n p -> first_prime_from n q -> p = q.
Proof.
  intros (Hp1 & Hp2 & Hp3) (Hq1 & Hq2 & Hq3).
  destruct (Z.lt_trichotomy p q) as [H|[H|H]]; [|exact H|].
  - exfalso. apply (Hq3 p); [lia|exact Hp1].
  - exfalso. apply (Hp3 q); [lia|exact Hq1].
Qed.

Lemma prime_odd (p : Z) : Z.prime p -> 2 < p -> Z.rem p 2 <> 0.
Proof.
  intros Hp H2 H. apply Z.rem_divide in H; [|lia].
  destruct Hp as [_ Hp]. apply (Hp 2); [lia|exact H].
Qed.

Lemma even_not_prime (n : Z) : 2 < n -> (2 | n) -> ~ Z.prime n.
Proof. intros Hn Hd [_ Hp]. apply (Hp 2); [lia|exact Hd]. Qed.

(** *** The floored square root *)

Lemma square_lt (a b : Z) : 0 <= b -> a * a < b * b -> a < b.
Proof. intros Hb H. nia. Qed.

Lemma pow_4 (k : Z) : 0 <= k -> 4 ^ k = 2 ^ k * 2 ^ k.
Proof. intros Hk. change 4 with (2 * 2). apply Z.pow_mul_l. Qed.

(** The exponent of the rounded root. *)
Lemma sqrt_exponent (v : Z) :
  0 < v < 9007199254740992 ->
  let k := 52 - Z.log2 (Z.sqrt v) in
  26 <= k /\ 0 < 2 ^ k /\ (Z.sqrt v < 67108864 -> Z.sqrt v + 1 < 2 ^ k).
Proof.
  intros Hv k.
  pose proof (Z.sqrt_spec v ltac:(lia)) as Hs. unfold Z.succ in Hs.
  pose proof (Z.sqrt_nonneg v) as Hs0.
  assert (H1 : 1 <= Z.sqrt v) by nia.
  assert (H2 : Z.sqrt v < 2 ^ 27) by (change (2 ^ 27) with 134217728; nia).
  apply Z.log2_lt_pow2 in H2; [|lia].
  pose proof (Z.log2_nonneg (Z.sqrt v)) as H3.
  split; [unfold k; lia|]. split; [apply Z.pow_pos_nonneg; unfold k; lia|].
  intros H4. assert (H5 : Z.sqrt v < 2 ^ 26) by exact H4.
  apply Z.log2_lt_pow2 in H5; [|lia].
  assert (H6 : 2 ^ 27 <= 2 ^ k) by (apply Z.pow_le_mono_r; unfold k; lia).
  change (2 ^ 27) with 134217728 in H6. lia.
Qed.

(** The rounded root of a number between [B * B] and [(B + 1) * (B + 1)],
    scaled by [K]. *)
Lemma rounded_root (v B K : Z) :
  0 <= B -> B * B <= v < (B + 1) * (B + 1) -> 0 < K ->
  let scaled := v * (K * K) in
  let m := Z.sqrt scaled in
  let significand := if m <? scaled - m * m then m + 1 else m in
  B <= significand / K <= B + 1 /\
  (B + 1 <= K -> significand / K = B) /\
  (v = B * B -> significand / K = B).
Proof.
  intros HB Hv HK scaled m significand.
  assert (Hscaled : 0 <= scaled) by (unfold scaled; nia).
  pose proof (Z.sqrt_spec scaled Hscaled) as Hm. fold m in Hm.
  pose proof (Z.sqrt_nonneg scaled) as Hm0. fold m in Hm0.
  assert (Hlow : B * K <= m).
  { assert (B * K < m + 1); [|lia]. apply square_lt; [lia|].
    unfold scaled in Hm. nia. }
  assert (Hup : m < (B + 1) * K).
  { apply square_lt; [nia|]. unfold scaled in Hm. nia. }
  assert (Hsig : m <= significand <= m + 1).
  { unfold significand. destruct (_ <? _); lia. }
  split; [|split].
  - split.
    + apply Z.div_le_lower_bound; [exact HK|]. nia.
    + apply Z.div_le_upper_bound; [exact HK|]. nia.
  - intros HBK.
    assert (Hlt : significand < (B + 1) * K).
    { unfold significand.
      destruct (Z.ltb_spec m (scaled - m * m)) as [Hr|Hr]; [|exact Hup].
      destruct (Z.eq_dec (m + 1) ((B + 1) * K)) as [E|E]; [exfalso|lia].
      assert (Hm1 : m = (B + 1) * K - 1) by lia.
      assert (Hs : scaled <= (B + 1) * K * ((B + 1) * K) - K * K)
        by (unfold scaled; nia).
      assert (HKK : (B + 1) * K <= K * K) by nia.
      rewrite Hm1 in Hr. nia. }
    apply Z.le_antisymm.
    + assert (significand / K < B + 1); [|lia].
      apply Z.div_lt_upper_bound; [exact HK|]. nia.
    + apply Z.div_le_lower_bound; [exact HK|]. nia.
  - intros E.
    assert (Hm1 : m = B * K).
    { unfold m, scaled. rewrite E.
      replace (B * B * (K * K)) with ((B * K) * (B * K)) by ring.
      apply Z.sqrt_square. nia. }
    assert (Hs : significand = B * K).
    { unfold significand. rewrite Hm1.
      destruct (Z.ltb_spec (B * K) (scaled - B * K * (B * K))) as [Hr|Hr];
        [|reflexivity].
      unfold scaled in Hr. rewrite E in Hr. nia. }
    rewrite Hs. apply Z.div_mul. lia.
Qed.

Lemma floor_sqrt_negative (v : Z) : v < 0 -> floor_sqrt v = NaN.
Proof.
  intros H. unfold floor_sqrt. destruct (Z.ltb_spec v 0); [reflexivity|lia].
Qed.

(** The floored root is the integer root, or one more. *)
Lemma floor_sqrt_bounds (v : Z) :
  0 <= v ->
  exists bound,
    floor_sqrt v = Num bound /\ Z.sqrt v <= bound <= Z.sqrt v + 1 /\
    (v < 4503599627370496 -> bound = Z.sqrt v) /\
    (v = Z.sqrt v * Z.sqrt v -> bound = Z.sqrt v).
Proof.
  intros Hv. unfold floor_sqrt.
  destruct (Z.ltb_spec v 0) as [|_]; [lia|].
  destruct ((v =? 0) || (9007199254740992 <=? v)) eqn:E.
  - exists (Z.sqrt v). repeat split; lia.
  - apply orb_false_elim in E. destruct E as [E1 E2].
    apply Z.eqb_neq in E1. apply Z.leb_gt in E2.
    destruct (sqrt_exponent v ltac:(lia)) as (Hk & HK & Hsmall).
    cbv zeta. rewrite pow_4 by lia.
    pose proof (Z.sqrt_spec v Hv) as Hs. unfold Z.succ in Hs.
    destruct (rounded_root v (Z.sqrt v) _ (Z.sqrt_nonneg v) Hs HK)
      as (H1 & H2 & H3).
    eexists. split; [reflexivity|]. split; [exact H1|]. split; [|exact H3].
    intros Hlt. apply H2.
    assert (Z.sqrt v < 67108864) by nia.
    specialize (Hsmall H). lia.
Qed.

Lemma floor_sqrt_square (p : Z) : 0 <= p -> floor_sqrt (p * p) = Num p.
Proof.
  intros Hp. destruct (floor_sqrt_bounds (p * p) ltac:(nia))
    as (bound & -> & _ & _ & H).
  rewrite Z.sqrt_square in H by exact Hp. rewrite H; reflexivity.
Qed.

(** Just below the square of [q] the rounded root is [q], once [q] is above
    2^26 = 67108864. *)
Lemma floor_sqrt_round_up (q : Z) :
  67108864 < q -> q * q - 1 < 9007199254740992 ->
  floor_sqrt (q * q - 1) = Num q.
Proof.
  intros Hq Hv.
  assert (Hs : Z.sqrt (q * q - 1) = q - 1) by (apply Z.sqrt_unique; nia).
  assert (Hl : Z.log2 (q - 1) = 26).
  { apply Z.log2_unique; [lia|].
    change (2 ^ 26) with 67108864. change (2 ^ (26 + 1)) with 134217728. nia. }
  unfold floor_sqrt.
  destruct (Z.ltb_spec (q * q - 1) 0) as [|_]; [nia|].
  destruct (Z.eqb_spec (q * q - 1) 0) as [|_]; [nia|].
  destruct (Z.leb_spec 9007199254740992 (q * q - 1)) as [|_]; [lia|].
  cbv zeta. cbn [orb]. rewrite Hs, Hl.
  change (4 ^ (52 - 26)) with (67108864 * 67108864).
  change (2 ^ (52 - 26)) with 67108864.
  assert (Hm : Z.sqrt ((q * q - 1) * (67108864 * 67108864))
               = q * 67108864 - 1) by (apply Z.sqrt_unique; nia).
  rewrite Hm.
  destruct (Z.ltb_spec (q * 67108864 - 1)
              ((q * q - 1) * (67108864 * 67108864)
               - (q * 67108864 - 1) * (q * 67108864 - 1))) as [_|H]; [|nia].
  replace (q * 67108864 - 1 + 1) with (q * 67108864) by lia.
  f_equal. apply Z.div_mul. lia.
Qed.

Lemma floor_sqrt_small (v : Z) :
  0 <= v < 4503599627370496 -> floor_sqrt v = Num (Z.sqrt v).
Proof.
  intros Hv. destruct (floor_sqrt_bounds v ltac:(lia))
    as (bound & -> & _ & H & _).
  rewrite H by lia. reflexivity.
Qed.

End Arithmetic.

(** ** isPrime *)

Section IsPrime.

Lemma prime_trial_division (n : Z) :
  2 <= n -> (Z.prime n <-> trial_division n).
Proof.
  intros Hn. split.
  - intros [_ Hp] d Hd Hdd. apply Hp. nia.
  - intros Ht. destruct (prime_dec n) as [Hp|Hp]; [exact Hp|exfalso].
    destruct (small_prime_divisor n) as (p & Hp1 & Hp2 & Hp3); [lia|exact Hp|].
    apply (Ht p); [apply Z.prime_ge_2; exact Hp1|exact Hp3|exact Hp2].
Qed.

Lemma step_square_le (i j : Z) :
  0 < i -> 0 <= j -> i * i <= (i + 6 * j) * (i + 6 * j).
Proof.
  intros Hi Hj.
  pose proof (Z.mul_nonneg_nonneg i j). pose proof (Z.mul_nonneg_nonneg j j).
  lia.
Qed.

Lemma isPrime_loop_spec (n : nat) (value i : Z) :
  0 < i -> 0 <= value -> Z.sqrt value < i + Z.of_nat n ->
  isPrime_loop n value i = true <->
  (forall j, 0 <= j -> (i + 6 * j) * (i + 6 * j) <= value ->
     Z.rem value (i + 6 * j) <> 0 /\ Z.rem value (i + 6 * j + 2) <> 0).
Proof.
  revert i. induction n as [|n IH]; intros i Hi Hv Hs.
  - assert (Hlt : value < i * i) by (apply Z.sqrt_lt_square; lia).
    cbn [isPrime_loop]. destruct (Z.leb_spec (i * i) value) as [H|H]; [lia|].
    split; [intros _ j Hj Hjj; exfalso; pose proof (step_square_le i j); lia|reflexivity].
  - cbn [isPrime_loop].
    destruct (Z.leb_spec (i * i) value) as [H|H].
    + destruct (Z.eqb_spec (Z.rem value i) 0) as [E1|E1]; cbn [orb].
      { split; [discriminate|]. intros Hall.
        destruct (Hall 0) as [H0 _]; [lia|nia|].
        replace (i + 6 * 0) with i in H0 by lia. contradiction. }
      destruct (Z.eqb_spec (Z.rem value (i + 2)) 0) as [E2|E2]; cbn [orb].
      { split; [discriminate|]. intros Hall.
        destruct (Hall 0) as [_ H0]; [lia|nia|].
        replace (i + 6 * 0) with i in H0 by lia. contradiction. }
      rewrite IH by lia. split; intros Hall j Hj Hjj.
      * destruct (Z.eq_dec j 0) as [->|Hne].
        -- replace (i + 6 * 0) with i by lia. auto.
        -- replace (i + 6 * j) with (i + 6 + 6 * (j - 1)) in * by lia.
           apply Hall; [lia|exact Hjj].
      * replace (i + 6 + 6 * j) with (i + 6 * (j + 1)) in * by lia.
        apply Hall; [lia|exact Hjj].
    + split; [intros _ j Hj Hjj; exfalso; pose proof (step_square_le i j); lia|reflexivity].
Qed.

(** [isPrime] is right on every integer but 3. *)
Lemma isPrime_correct (value : Z) :
  value <> 3 -> (isPrime value = true <-> Z.prime value).
Proof.
  intros H3. unfold isPrime.
  destruct (Z.ltb_spec value 2) as [Hlt|Hge].
  { split; [discriminate|]. intros Hp. pose proof (Z.prime_ge_2 _ Hp). lia. }
  destruct (Z.eqb_spec value 2) as [->|H2].
  { split; [intros _; apply Z.prime_2|reflexivity]. }
  destruct (Z.eqb_spec (Z.rem value 2) 0) as [E2|E2]; cbn [orb].
  { split; [discriminate|]. intros Hp. exfalso.
    apply (prime_odd value Hp); [lia|exact E2]. }
  destruct (Z.eqb_spec (Z.rem value 3) 0) as [E3|E3]; cbn [orb].
  { split; [discriminate|]. intros [_ Hp]. exfalso.
    apply (Hp 3); [lia|]. apply Z.rem_divide; [lia|exact E3]. }
  rewrite isPrime_loop_spec; [|lia|lia|].
  2:{ rewrite Z2Nat.id; [lia|apply Z.sqrt_nonneg]. }
  split.
  - intros Hall. destruct (prime_dec value) as [Hp|Hp]; [exact Hp|exfalso].
    destruct (small_prime_divisor value) as (p & Hp1 & Hp2 & Hp3);
      [lia|exact Hp|].
    pose proof (Z.prime_ge_2 p Hp1) as Hp4.
    assert (Hr : forall d, (d | p) -> d <> 0 -> Z.rem value d = 0).
    { intros d Hd Hd0. apply Z.rem_divide; [exact Hd0|].
      eapply Z.divide_trans; eassumption. }
    assert (Hp2' : p <> 2).
    { intros ->. apply E2. apply Hr; [apply Z.divide_refl|lia]. }
    assert (Hp3' : p <> 3).
    { intros ->. apply E3. apply Hr; [apply Z.divide_refl|lia]. }
    assert (Hn2 : ~ (2 | p)).
    { intros Hd. apply (even_not_prime p); [lia|exact Hd|exact Hp1]. }
    assert (Hn3 : ~ (3 | p)).
    { intros Hd. destruct Hp1 as [_ Hp1]. apply (Hp1 3); [lia|exact Hd]. }
    assert (Hmod : p mod 6 = 1 \/ p mod 6 = 5).
    { pose proof (Z.mod_pos_bound p 6 ltac:(lia)) as Hb.
      pose proof (Z.div_mod p 6 ltac:(lia)) as Hdm.
      assert (Hc : p mod 6 = 0 \/ p mod 6 = 1 \/ p mod 6 = 2 \/ p mod 6 = 3
                   \/ p mod 6 = 4 \/ p mod 6 = 5) by lia.
      destruct Hc as [Hc|[Hc|[Hc|[Hc|[Hc|Hc]]]]]; auto; exfalso.
      - apply Hn2. exists (3 * (p / 6)). lia.
      - apply Hn2. exists (3 * (p / 6) + 1). lia.
      - apply Hn3. exists (2 * (p / 6) + 1). lia.
      - apply Hn2. exists (3 * (p / 6) + 2). lia. }
    pose proof (Z.div_mod p 6 ltac:(lia)) as Hdm.
    destruct Hmod as [Hm|Hm].
    + destruct (Hall (p / 6 - 1)) as [_ Hb]; [lia|nia|].
      apply Hb. replace (5 + 6 * (p / 6 - 1) + 2) with p by lia.
      apply Z.rem_divide; [lia|exact Hp2].
    + destruct (Hall (p / 6)) as [Ha _]; [lia|nia|].
      apply Ha. replace (5 + 6 * (p / 6)) with p by lia.
      apply Z.rem_divide; [lia|exact Hp2].
  - intros [_ Hp] j Hj Hjj. split; intros Hr.
    + apply Z.rem_divide in Hr; [|lia]. apply (Hp (5 + 6 * j)); [nia|exact Hr].
    + apply Z.rem_divide in Hr; [|lia].
      apply (Hp (5 + 6 * j + 2)); [nia|exact Hr].
Qed.

Lemma isPrime_sound (value : Z) : isPrime value = true -> Z.prime value.
Proof.
  intros H. destruct (Z.eq_dec value 3) as [->|H3]; [discriminate|].
  apply isPrime_correct; assumption.
Qed.

End IsPrime.

(** ** The sieve of primeGenerator *)

Section Sieve.

Implicit Types (c : ValuedIterator) (l : SortedLinkedList ValuedIterator).

Lemma comparator_antisymmetric : antisymmetric comparator.
Proof.
  intros a b. simpl. replace (current a - current b)
    with (- (current b - current a)) by lia.
  rewrite Z.sgn_opp. lia.
Qed.

Lemma comparator_transitive : transitive comparator.
Proof. intros a b d. simpl. lia. Qed.

Lemma uniform_getComparator {T : Type} (k : Comparator T) (l : SortedLinkedList T) :
  uniform k l -> getComparator l = k.
Proof. destruct l; simpl; tauto. Qed.

Lemma uniform_splice {T : Type} (k : Comparator T) (l : SortedLinkedList T) (v : T) :
  uniform k l -> uniform k (splice k v l).
Proof.
  induction l as [k' w|k' w n IH]; simpl.
  - auto.
  - intros [-> Hn]. destruct (_ <? _); simpl; auto.
Qed.

Lemma uniform_insert {T : Type} (k : Comparator T) (l : SortedLinkedList T) (v : T) :
  uniform k l -> uniform k (insert l v).
Proof.
  intros H. unfold insert. rewrite (uniform_getComparator k l H).
  destruct (_ >? _); simpl; auto using uniform_splice.
Qed.

Lemma sorted_insert_uniform {T : Type} (k : Comparator T)
  (l : SortedLinkedList T) (v : T) :
  antisymmetric k -> uniform k l -> sorted k l -> sorted k (insert l v).
Proof.
  intros Ha Hu Hs. rewrite <- (uniform_getComparator k l Hu).
  apply sorted_insert; rewrite (uniform_getComparator k l Hu); assumption.
Qed.

(** The head of a sorted chain of cursors is the least. *)
Lemma head_least l c :
  sorted comparator l -> In c (elements l) ->
  current (getValue l) <= current c.
Proof.
  intros Hs Hin. apply sorted_ascending in Hs.
  destruct (getValue_head l) as [tl E]. rewrite E in *.
  destruct Hin as [<-|Hin]; [lia|].
  pose proof (ascending_least comparator _ _ comparator_transitive Hs) as H.
  rewrite Forall_forall in H. specialize (H c Hin). simpl in H. lia.
Qed.

Lemma slack_perm p cs cs' : Permutation cs cs' -> slack p cs = slack p cs'.
Proof.
  induction 1; simpl; lia.
Qed.

Lemma slack_nonneg p value cs :
  value <= p -> Forall (cursor_ok value) cs -> 0 <= slack p cs.
Proof.
  intros Hp. induction 1 as [|c cs Hc _ IH]; simpl; [lia|].
  destruct Hc as (_ & _ & _ & _ & Hc). lia.
Qed.

Lemma cursor_ok_next value c :
  cursor_ok value c -> current c < value ->
  cursor_ok value (next c) /\ base (next c) = base c /\
  current (next c) = current c + base c.
Proof.
  intros (Hi & Hp & Hb & Hd & Hc) Hlt.
  destruct c as [it cv]. unfold cursor_ok, next, base, current in *.
  simpl in *. destruct it as [v|v m]; [discriminate|].
  injection Hi as ->. simpl.
  split; [|split; reflexivity].
  split; [reflexivity|]. split; [exact Hp|]. split; [exact Hb|].
  split; [|lia]. apply Z.divide_add_r; [exact Hd|apply Z.divide_refl].
Qed.

Lemma cursor_ok_weaken value value' c :
  value <= value' -> cursor_ok value c -> cursor_ok value' c.
Proof.
  intros Hle (Hi & Hp & Hb & Hd & Hc). repeat split; try tauto; try lia.
  apply Hp.
Qed.

Lemma cursor_ok_fresh value p :
  Z.prime p -> 3 <= p < value ->
  cursor_ok value (newValuedIterator (multipleGenerator p)).
Proof.
  intros Hp H3. unfold cursor_ok, base, current. simpl.
  split; [reflexivity|]. split; [exact Hp|]. split; [exact H3|].
  split; [apply Z.divide_refl|lia].
Qed.

Lemma cursor_ok_new value :
  Z.prime value -> 3 <= value ->
  let c := newValuedIterator (multipleGenerator value) in
  cursor_ok (value + 2) c /\ base c = value /\ current c = value.
Proof.
  intros Hp H3. simpl. unfold cursor_ok, base, current. simpl.
  repeat split; try lia; try apply Hp. apply Z.divide_refl.
Qed.

(** A candidate that a cursor sits on is not prime. *)
Lemma cursor_hit_not_prime value c :
  cursor_ok value c -> current c = value -> ~ Z.prime value.
Proof.
  intros (_ & _ & Hb & Hd & _) E [_ Hp]. rewrite E in Hd.
  apply (Hp (base c)); [lia|exact Hd].
Qed.

(** A candidate that every cursor is past is prime. *)
Lemma all_past_prime value l :
  sieve_inv value l -> value < current (getValue l) -> Z.prime value.
Proof.
  intros (H11 & [k Hk] & _ & Hs & _ & Hok & Hall) Hlt.
  destruct (prime_dec value) as [Hp|Hp]; [exact Hp|exfalso].
  destruct (small_prime_divisor value) as (q & Hq1 & Hq2 & Hq3);
    [lia|exact Hp|].
  pose proof (Z.prime_ge_2 q Hq1) as Hq4.
  assert (Hq5 : q <> 2).
  { intros ->. destruct Hq2 as [m Hm]. lia. }
  destruct (Hall q Hq1) as (c & Hin & Hbase); [nia|].
  pose proof (head_least l c Hs Hin) as Hhead.
  rewrite Forall_forall in Hok.
  destruct (Hok c Hin) as (_ & _ & _ & [m Hm] & Hc).
  destruct Hq2 as [m' Hm']. rewrite Hbase in *.
  assert (Hmm : m' < m) by (apply Z.mul_lt_mono_pos_r with q; lia).
  assert ((m' + 1) * q <= m * q) by (apply Z.mul_le_mono_nonneg_r; lia).
  lia.
Qed.

(** One turn of the inner loop. *)
Lemma sift_step value l :
  sieve_inv value l -> current (getValue l) < value ->
  exists rest, getNext l = Some rest /\
    let pmg := insert rest (next (getValue l)) in
    let value' :=
      if current (getValue pmg) =? value then value + 2 else value in
    sieve_inv value' pmg /\ current (getValue pmg) <> value' /\
    value <= value' /\ (forall m, value <= m < value' -> ~ Z.prime m) /\
    (forall p, slack p (elements pmg) + 3 <= slack p (elements l)).
Proof.
  intros (H11 & [k Hk] & Hu & Hs & Hlen & Hok & Hall) Hlt.
  destruct l as [k0 cg|k0 cg rest]; [simpl in Hlen; lia|].
  exists rest. split; [reflexivity|].
  simpl in Hu, Hs, Hlt |- *. destruct Hu as [-> Hu]. destruct Hs as [_ Hs].
  change (elements (Node comparator cg rest)) with (cg :: elements rest) in *.
  pose proof (Forall_inv Hok) as Hcg. pose proof (Forall_inv_tail Hok) as Hrest.
  destruct (cursor_ok_next value cg Hcg Hlt) as (Hcg' & Hbase & Hcur).
  set (pmg := insert rest (next cg)).
  assert (Hperm : Permutation (elements pmg) (next cg :: elements rest))
    by apply elements_insert.
  assert (Hok' : Forall (cursor_ok value) (elements pmg)).
  { eapply Permutation_Forall; [symmetry; exact Hperm|].
    constructor; assumption. }
  assert (Hhead : In (getValue pmg) (elements pmg)).
  { destruct (getValue_head pmg) as [tl ->]. left. reflexivity. }
  assert (Hhit : current (getValue pmg) = value -> ~ Z.prime value).
  { intros E. eapply cursor_hit_not_prime; [|exact E].
    rewrite Forall_forall in Hok'. apply Hok'. exact Hhead. }
  assert (Hstep : forall value', value <= value' ->
            (forall m, value <= m < value' -> ~ Z.prime m) ->
            (exists k', value' = 2 * k' + 1) -> sieve_inv value' pmg).
  { intros value' Hle Hnp Hodd.
    split; [lia|]. split; [exact Hodd|].
    split; [apply uniform_insert; exact Hu|].
    split; [apply sorted_insert_uniform;
            auto using comparator_antisymmetric|].
    split; [rewrite (Permutation_length Hperm); simpl in *; lia|].
    split.
    - eapply Forall_impl; [|exact Hok'].
      intros c. apply cursor_ok_weaken. exact Hle.
    - intros q Hq Hrange.
      destruct (Z_lt_ge_dec q value) as [Hqv|Hqv].
      + destruct (Hall q Hq) as (c & [<-|Hin] & Hc); [lia| |].
        * exists (next cg). split; [|congruence].
          eapply Permutation_in; [symmetry; exact Hperm|]. left. reflexivity.
        * exists c. split; [|exact Hc].
          eapply Permutation_in; [symmetry; exact Hperm|]. right. exact Hin.
      + exfalso. apply (Hnp q); [lia|exact Hq]. }
  destruct (Z.eqb_spec (current (getValue pmg)) value) as [E|E].
  - split; [|split; [lia|split; [lia|split]]].
    + apply Hstep; [lia| |exists (k + 1); lia].
      intros m Hm. destruct (Z.eq_dec m value) as [->|Hne]; [auto|].
      apply even_not_prime; [lia|]. exists (k + 1). lia.
    + intros m Hm. destruct (Z.eq_dec m value) as [->|Hne]; [auto|].
      apply even_not_prime; [lia|]. exists (k + 1). lia.
    + intros p. rewrite (slack_perm p _ _ Hperm). simpl.
      destruct Hcg as (_ & _ & Hb & _). lia.
  - split; [|split; [exact E|split; [lia|split]]].
    + apply Hstep; [lia|intros; lia|exists k; exact Hk].
    + intros; lia.
    + intros p. rewrite (slack_perm p _ _ Hperm). simpl.
      destruct Hcg as (_ & _ & Hb & _). lia.
Qed.

Lemma sift_eq fuel value l :
  sift fuel value l =
  if current (getValue l) <? value then
    match fuel with
    | O => Timeout
    | S fuel' =>
        pmg <- invoke (getNext l) (fun rest => insert rest (next (getValue l))) ;;
        sift fuel'
          (if current (getValue pmg) =? value then value + 2 else value) pmg
    end
  else Normal (value, l).
Proof. destruct fuel; reflexivity. Qed.

(** Whatever the fuel, the inner loop only ends on the first prime from the
    candidate on, with every cursor past it. *)
Lemma sift_partial fuel : forall value l value' l',
  sieve_inv value l -> current (getValue l) <> value ->
  sift fuel value l = Normal (value', l') ->
  sieve_inv value' l' /\ value' < current (getValue l') /\
  first_prime_from value value'.
Proof.
  induction fuel as [|fuel IH]; intros value l value' l' Hinv Hne;
    rewrite sift_eq; destruct (Z.ltb_spec (current (getValue l)) value)
      as [Hlt|Hge]; try discriminate.
  - intros [= <- <-]. assert (Hpast : value < current (getValue l)) by lia.
    split; [exact Hinv|]. split; [exact Hpast|].
    split; [eapply all_past_prime; eassumption|]. split; [lia|intros; lia].
  - destruct (sift_step value l Hinv Hlt)
      as (rest & -> & Hinv' & Hne' & Hle & Hnp & _).
    simpl. intros Hsift.
    destruct (IH _ _ _ _ Hinv' Hne' Hsift) as (H1 & H2 & H3 & H4 & H5).
    split; [exact H1|]. split; [exact H2|].
    split; [exact H3|]. split; [lia|].
    intros m Hm. destruct (Z_lt_ge_dec m
      (if current (getValue (insert rest (next (getValue l)))) =? value
       then value + 2 else value)); [apply Hnp|apply H5]; lia.
  - intros [= <- <-]. assert (Hpast : value < current (getValue l)) by lia.
    split; [exact Hinv|]. split; [exact Hpast|].
    split; [eapply all_past_prime; eassumption|]. split; [lia|intros; lia].
Qed.

(** The inner loop ends, given fuel for the slack of the cursors. *)
Lemma sift_total (n : nat) : forall value l p,
  sieve_inv value l -> current (getValue l) <> value ->
  first_prime_from value p -> slack p (elements l) <= Z.of_nat n ->
  forall fuel, (n <= fuel)%nat -> exists r, sift fuel value l = Normal r.
Proof.
  induction n as [|n IH]; intros value l p Hinv Hne Hp Hslack fuel Hfuel;
    rewrite sift_eq; destruct (Z.ltb_spec (current (getValue l)) value)
      as [Hlt|Hge]; eauto.
  - exfalso.
    destruct (sift_step value l Hinv Hlt)
      as (rest & _ & Hinv' & _ & Hle & Hnp & Hdec).
    set (value' := if current (getValue (insert rest (next (getValue l))))
                      =? value then value + 2 else value) in *.
    destruct Hp as (Hp1 & Hp2 & Hp3).
    assert (value' <= p).
    { destruct (Z_le_gt_dec value' p); [assumption|exfalso].
      apply (Hnp p); [lia|exact Hp1]. }
    destruct Hinv' as (_ & _ & _ & _ & _ & Hok & _).
    pose proof (slack_nonneg p value' _ H Hok). specialize (Hdec p). lia.
  - destruct fuel as [|fuel]; [lia|].
    destruct (sift_step value l Hinv Hlt)
      as (rest & -> & Hinv' & Hne' & Hle & Hnp & Hdec).
    simpl.
    set (value' := if current (getValue (insert rest (next (getValue l))))
                      =? value then value + 2 else value) in *.
    destruct Hp as (Hp1 & Hp2 & Hp3).
    assert (value' <= p).
    { destruct (Z_le_gt_dec value' p); [assumption|exfalso].
      apply (Hnp p); [lia|exact Hp1]. }
    apply (IH value' _ p); try assumption.
    + split; [exact Hp1|]. split; [assumption|]. intros m Hm. apply Hp3. lia.
    + specialize (Hdec p). lia.
    + lia.
Qed.

Lemma sift_mono fuel : forall fuel' value l r,
  sift fuel value l = Normal r -> (fuel <= fuel')%nat ->
  sift fuel' value l = Normal r.
Proof.
  induction fuel as [|fuel IH]; intros fuel' value l r;
    rewrite !sift_eq; destruct (_ <? _); try discriminate; auto.
  destruct fuel' as [|fuel']; [lia|].
  destruct (getNext l); simpl; [|discriminate].
  intros H Hle. apply IH; [exact H|lia].
Qed.

(** The candidate and the chain that the outer loop goes on with after
    [yield value]. *)
Lemma advance_inv value l :
  sieve_inv value l -> value < current (getValue l) ->
  let pmg := insert l (newValuedIterator (multipleGenerator value)) in
  sieve_inv (value + 2) pmg /\ current (getValue pmg) <> value + 2.
Proof.
  intros Hinv Hpast.
  pose proof (all_past_prime value l Hinv Hpast) as Hprime.
  destruct Hinv as (H11 & [k Hk] & Hu & Hs & Hlen & Hok & Hall).
  destruct (cursor_ok_new value Hprime) as (Hnew & Hbase & Hcur); [lia|].
  set (new := newValuedIterator (multipleGenerator value)) in *.
  intros pmg.
  assert (Hperm : Permutation (elements pmg) (new :: elements l))
    by apply elements_insert.
  assert (Hs' : sorted comparator pmg)
    by (apply sorted_insert_uniform; auto using comparator_antisymmetric).
  split.
  - split; [lia|]. split; [exists (k + 1); lia|].
    split; [apply uniform_insert; exact Hu|]. split; [exact Hs'|].
    split; [rewrite (Permutation_length Hperm); simpl; lia|].
    split.
    + eapply Permutation_Forall; [symmetry; exact Hperm|].
      constructor; [exact Hnew|].
      eapply Forall_impl; [|exact Hok].
      intros c. apply cursor_ok_weaken. lia.
    + intros q Hq Hrange.
      destruct (Z_lt_ge_dec q value) as [Hqv|Hqv].
      * destruct (Hall q Hq) as (c & Hin & Hc); [lia|].
        exists c. split; [|exact Hc].
        eapply Permutation_in; [symmetry; exact Hperm|]. right. exact Hin.
      * destruct (Z.eq_dec q value) as [->|Hne].
        -- exists new. split; [|exact Hbase].
           eapply Permutation_in; [symmetry; exact Hperm|]. left. reflexivity.
        -- exfalso. apply (even_not_prime q); [lia| |exact Hq].
           exists (k + 1). lia.
  - assert (Hin : In new (elements pmg)).
    { eapply Permutation_in; [symmetry; exact Hperm|]. left. reflexivity. }
    pose proof (head_least pmg new Hs' Hin). lia.
Qed.

Lemma prime_5 : Z.prime 5.
Proof. apply isPrime_correct; [lia|reflexivity]. Qed.

Lemma prime_7 : Z.prime 7.
Proof. apply isPrime_correct; [lia|reflexivity]. Qed.

Lemma prime_11 : Z.prime 11.
Proof. apply isPrime_correct; [lia|reflexivity]. Qed.

Lemma primes_below_11 (q : Z) :
  Z.prime q -> q < 11 -> q = 2 \/ q = 3 \/ q = 5 \/ q = 7.
Proof.
  intros Hq Hlt. pose proof (Z.prime_ge_2 q Hq).
  assert (Hc : q = 2 \/ q = 3 \/ q = 4 \/ q = 5 \/ q = 6 \/ q = 7 \/ q = 8
               \/ q = 9 \/ q = 10) by lia.
  destruct Hc as [->|[->|[->|[->|[->|[->|[->|[->| ->]]]]]]]]; auto; exfalso.
  - apply (even_not_prime 4); [lia|exists 2; lia|exact Hq].
  - apply (even_not_prime 6); [lia|exists 3; lia|exact Hq].
  - apply (even_not_prime 8); [lia|exists 4; lia|exact Hq].
  - destruct Hq as [_ Hq]. apply (Hq 3); [lia|exists 3; lia].
  - apply (even_not_prime 10); [lia|exists 5; lia|exact Hq].
Qed.

Lemma seedGenerators_inv :
  sieve_inv 11 seedGenerators /\ current (getValue seedGenerators) <> 11.
Proof.
  split; [|vm_compute; discriminate].
  split; [lia|]. split; [exists 5; lia|].
  split; [simpl; auto|]. split; [simpl; lia|]. split; [simpl; lia|].
  split.
  - change (elements seedGenerators) with
      [ newValuedIterator (multipleGenerator 3);
        newValuedIterator (multipleGenerator 5);
        newValuedIterator (multipleGenerator 7) ].
    repeat (constructor; [apply cursor_ok_fresh;
      [auto using Z.prime_3, prime_5, prime_7|lia]|]).
    constructor.
  - intros q Hq Hrange.
    destruct (primes_below_11 q Hq) as [->|[->|[->| ->]]]; [lia|lia| | |].
    + eexists. split; [left; reflexivity|reflexivity].
    + eexists. split; [right; left; reflexivity|reflexivity].
    + eexists. split; [right; right; left; reflexivity|reflexivity].
Qed.

(** *** The generator object *)

Lemma first_prime_from_extend (n n' p : Z) :
  n <= n' -> (forall m, n <= m < n' -> ~ Z.prime m) ->
  first_prime_from n' p -> first_prime_from n p.
Proof.
  intros Hle Hnp (Hp1 & Hp2 & Hp3). split; [exact Hp1|]. split; [lia|].
  intros m Hm. destruct (Z_lt_ge_dec m n'); [apply Hnp|apply Hp3]; lia.
Qed.

(** In the loop, [next()] is one [turn] from a candidate and a chain that
    satisfy the invariant of the sieve. *)
Lemma resume_in_loop g :
  gen_inv g -> in_loop g ->
  exists value l,
    (forall fuel, resume fuel g = turn fuel (limit g) value l) /\
    sieve_inv value l /\ current (getValue l) <> value /\
    (forall p, first_prime_from value p -> first_prime_from (lower g) p).
Proof.
  destruct g as [m|m v l|m v l|m v l|m v l|m v l|]; simpl; try tauto.
  - intros [-> ->] _. exists 11, seedGenerators.
    split; [reflexivity|]. destruct seedGenerators_inv as [H1 H2].
    split; [exact H1|]. split; [exact H2|].
    intros p. apply first_prime_from_extend; [lia|].
    intros q Hq Hp. destruct (primes_below_11 q Hp); lia.
  - intros [Hinv Hpast] _.
    exists (v + 2), (insert l (newValuedIterator (multipleGenerator v))).
    split; [reflexivity|].
    destruct (advance_inv v l Hinv Hpast) as [H1 H2].
    split; [exact H1|]. split; [exact H2|].
    intros p. apply first_prime_from_extend; [lia|].
    intros q Hq. assert (q = v + 1) by lia. subst q.
    destruct Hinv as (H11 & [k Hk] & _).
    apply even_not_prime; [lia|]. exists (k + 1). lia.
Qed.

Lemma turn_partial fuel maxValue value l r g' :
  sieve_inv value l -> current (getValue l) <> value ->
  turn fuel maxValue value l = Normal (r, g') ->
  match r with
  | Some q =>
      first_prime_from value q /\ passed maxValue q = false /\
      exists l', g' = YieldValue maxValue q l' /\
        sieve_inv q l' /\ q < current (getValue l')
  | None =>
      g' = Returned /\
      exists p, first_prime_from value p /\ passed maxValue p = true
  end.
Proof.
  intros Hinv Hne. unfold turn.
  destruct (sift fuel value l) as [[value' l']| |] eqn:E; try discriminate.
  simpl. destruct (sift_partial _ _ _ _ _ Hinv Hne E) as (H1 & H2 & H3).
  destruct (passed maxValue value') eqn:Hpass; intros [= <- <-].
  - split; [reflexivity|]. eauto.
  - split; [exact H3|]. split; [exact Hpass|]. eauto.
Qed.

Lemma turn_total maxValue value l :
  sieve_inv value l -> current (getValue l) <> value ->
  exists N p l',
    first_prime_from value p /\ sieve_inv p l' /\
    p < current (getValue l') /\
    forall fuel, (N <= fuel)%nat ->
      turn fuel maxValue value l =
      if passed maxValue p then Normal (None, Returned)
      else Normal (Some p, YieldValue maxValue p l').
Proof.
  intros Hinv Hne.
  destruct (first_prime_from_exists value) as [p Hp].
  set (N := Z.to_nat (slack p (elements l))).
  destruct (sift_total N value l p Hinv Hne Hp) with (fuel := N)
    as [[value' l'] E]; [unfold N; lia|lia|].
  destruct (sift_partial _ _ _ _ _ Hinv Hne E) as (H1 & H2 & H3).
  assert (value' = p) by (eapply first_prime_from_unique; eassumption).
  subst value'. exists N, p, l'.
  split; [exact Hp|]. split; [exact H1|]. split; [exact H2|].
  intros fuel Hfuel. unfold turn.
  rewrite (sift_mono _ _ _ _ _ E Hfuel). simpl.
  destruct (passed maxValue p); reflexivity.
Qed.

(** Whatever the fuel, [next()] gives the first prime from [lower g] on. *)
Lemma resume_partial fuel g r g' :
  gen_inv g -> resume fuel g = Normal (r, g') ->
  gen_inv g' /\
  match r with
  | Some q => first_prime_from (lower g) q /\ lower g' = q + 1
  | None => g' = Returned
  end.
Proof.
  intros Hinv.
  assert (Hloop : in_loop g -> resume fuel g = Normal (r, g') ->
            gen_inv g' /\
            match r with
            | Some q => first_prime_from (lower g) q /\ lower g' = q + 1
            | None => g' = Returned
            end).
  { intros Hl.
    destruct (resume_in_loop g Hinv Hl) as (value & l & -> & H1 & H2 & H3).
    intros Hturn. pose proof (turn_partial _ _ _ _ _ _ H1 H2 Hturn) as H.
    destruct r as [q|].
    - destruct H as (Hq & _ & l' & -> & Hi & Hpast).
      split; [split; assumption|]. split; [auto|reflexivity].
    - destruct H as [-> _]. split; [exact I|reflexivity]. }
  destruct g as [m|m v l|m v l|m v l|m v l|m v l|];
    try (apply Hloop; exact I); clear Hloop; simpl in Hinv |- *;
    intros [= <- <-]; simpl.
  - split; [split; reflexivity|]. split; [|reflexivity].
    split; [apply Z.prime_2|]. split; [lia|intros; lia].
  - split; [exact Hinv|]. split; [|reflexivity].
    split; [apply Z.prime_3|]. split; [lia|intros; lia].
  - split; [exact Hinv|]. split; [|reflexivity].
    split; [apply prime_5|]. split; [lia|].
    intros q Hq. assert (q = 4) by lia. subst q.
    apply even_not_prime; [lia|exists 2; lia].
  - split; [exact Hinv|]. split; [|reflexivity].
    split; [apply prime_7|]. split; [lia|].
    intros q Hq. assert (q = 6) by lia. subst q.
    apply even_not_prime; [lia|exists 3; lia].
  - split; [exact I|reflexivity].
Qed.

(** The values of a generator from a state on are at least [lower]. *)
Lemma pull_lower n fuel : forall g out g',
  gen_inv g -> pull n fuel g = Normal (out, g') ->
  Forall (fun q => lower g <= q) out.
Proof.
  induction n as [|n IH]; intros g out g' Hinv; simpl.
  - intros [= <- <-]. constructor.
  - destruct (resume fuel g) as [[[q|] g1]| |] eqn:E; simpl; try discriminate.
    + destruct (resume_partial _ _ _ _ Hinv E) as (Hinv1 & Hq & Hlow).
      destruct (pull n fuel g1) as [[out1 g2]| |] eqn:E1; simpl;
        try discriminate.
      intros [= <- <-]. constructor; [apply Hq|].
      eapply Forall_impl; [|eapply IH; eassumption].
      intros x Hx. simpl in Hx. destruct Hq as (_ & Hq & _). lia.
    + intros [= <- <-]. constructor.
Qed.

(** The [for ... of] loop of [primeFactors] stops on the least prime
    divisor there is from [lower g] on. *)
Lemma firstDivisor_partial n fuel value : forall g q,
  gen_inv g -> firstDivisor n fuel g value = Normal (Some q) ->
  Z.prime q /\ lower g <= q /\ Z.rem value q = 0 /\
  forall r, Z.prime r -> lower g <= r < q -> Z.rem value r <> 0.
Proof.
  induction n as [|n IH]; intros g q Hinv; simpl; [discriminate|].
  destruct (resume fuel g) as [[[q1|] g1]| |] eqn:E; simpl; try discriminate.
  destruct (resume_partial _ _ _ _ Hinv E) as (Hinv1 & Hq & Hlow).
  destruct Hq as (Hq1 & Hq2 & Hq3).
  destruct (Z.eqb_spec (Z.rem value q1) 0) as [Hr|Hr].
  - intros [= <-]. split; [exact Hq1|]. split; [exact Hq2|].
    split; [exact Hr|]. intros r Hr1 Hr2. exfalso. apply (Hq3 r); assumption.
  - intros Hrec. destruct (IH _ _ Hinv1 Hrec) as (H1 & H2 & H3 & H4).
    split; [exact H1|]. split; [lia|]. split; [exact H3|].
    intros r Hr1 Hr2.
    destruct (Z_lt_ge_dec r q1) as [Hlt|Hge];
      [exfalso; apply (Hq3 r); [lia|exact Hr1]|].
    destruct (Z.eq_dec r q1) as [->|Hne]; [exact Hr|].
    apply H4; [exact Hr1|lia].
Qed.

(** The loop of a bounded generator ends, having given the primes below
    the bound in ascending order. *)
Lemma forOf_in_loop (k : nat) : forall g B,
  gen_inv g -> in_loop g -> limit g = Some (Num B) ->
  B - lower g <= Z.of_nat k ->
  exists N out,
    (forall n fuel, (N <= n)%nat -> (N <= fuel)%nat ->
       forOf n fuel g = Normal out) /\
    StronglySorted Z.lt out /\
    (forall x, In x out <-> Z.prime x /\ lower g <= x < B).
Proof.
  induction k as [|k IH]; intros g B Hinv Hloop Hlim Hk;
    destruct (resume_in_loop g Hinv Hloop) as (value & l & Hres & H1 & H2 & H3);
    destruct (turn_total (limit g) value l H1 H2)
      as (N1 & p & l' & Hp & Hinv' & Hpast & Hturn);
    pose proof (H3 p Hp) as (Hp1 & Hp2 & Hp3);
    rewrite Hlim in Hturn, Hres; simpl in Hturn;
    destruct (Z.leb_spec B p) as [Hpass|Hpass]; try lia.
  1,2: exists (S N1), []; split; [|split; [constructor|]].
  1,3: intros [|n] fuel Hn Hfuel; [lia|]; simpl;
       rewrite Hres, Hturn by lia; reflexivity.
  1,2: intros x; split; [intros []|];
       intros (Hx1 & Hx2); exfalso; apply (Hp3 x); [lia|exact Hx1].
  destruct (IH (YieldValue (Some (Num B)) p l') B)
    as (N2 & out & Hout1 & Hout2 & Hout3);
    [split; assumption|exact I|reflexivity|simpl; lia|].
  exists (S (Nat.max N1 N2)), (p :: out). split; [|split].
  - intros [|n] fuel Hn Hfuel; [lia|]. simpl.
    rewrite Hres, Hturn by lia. simpl. rewrite Hout1 by lia. reflexivity.
  - constructor; [exact Hout2|].
    apply Forall_forall. intros x Hx. apply Hout3 in Hx. simpl in Hx. lia.
  - intros x. simpl. rewrite Hout3. simpl. split.
    + intros [<-|(Hx1 & Hx2)]; [split; [exact Hp1|lia]|split; [exact Hx1|lia]].
    + intros (Hx1 & Hx2).
      destruct (Z.eq_dec p x) as [E|E]; [left; exact E|right].
      split; [exact Hx1|].
      destruct (Z_lt_ge_dec x p) as [Hlt|Hge]; [|lia].
      exfalso. apply (Hp3 x); [lia|exact Hx1].
Qed.

(** [primeGenerator(B)] run to its end: the four seeds, then the primes
    from 11 on below [B], in ascending order. *)
Lemma forOf_primeGenerator (B : Z) :
  exists N out,
    (forall n fuel, (N <= n)%nat -> (N <= fuel)%nat ->
       forOf n fuel (primeGenerator (Some (Num B)))
       = Normal (2 :: 3 :: 5 :: 7 :: out)) /\
    StronglySorted Z.lt out /\
    (forall x, In x out <-> Z.prime x /\ 11 <= x < B).
Proof.
  destruct (forOf_in_loop (Z.to_nat (B - 8))
              (Yield7 (Some (Num B)) 11 seedGenerators) B)
    as (N & out & H1 & H2 & H3);
    [split; reflexivity|exact I|reflexivity|simpl; lia|].
  exists (4 + N)%nat, out. split; [|split; [exact H2|]].
  - intros n fuel Hn Hfuel.
    do 4 (destruct n as [|n]; [lia|]).
    cbn -[forOf]. simpl. rewrite H1 by lia. reflexivity.
  - intros x. rewrite H3. simpl. split; intros (Hx1 & Hx2);
      (split; [exact Hx1|]); [|lia].
    destruct (Z_lt_ge_dec x 11) as [Hlt|Hge]; [|lia].
    destruct (primes_below_11 x Hx1 Hlt); lia.
Qed.

(** The [for ... of] loop of [primeFactors] over a generator that ends. *)
Lemma firstDivisor_forOf n fuel value : forall g out,
  forOf n fuel g = Normal out ->
  firstDivisor n fuel g value
  = Normal (find (fun prime => Z.rem value prime =? 0) out).
Proof.
  induction n as [|n IH]; intros g out; simpl; [discriminate|].
  destruct (resume fuel g) as [[[q|] g1]| |]; simpl; try discriminate.
  - destruct (forOf n fuel g1) as [out1| |] eqn:E; simpl; try discriminate.
    intros [= <-]. simpl. destruct (_ =? 0); [reflexivity|]. apply IH. exact E.
  - intros [= <-]. reflexivity.
Qed.

End Sieve.

(** ** primeFactors *)

Section PrimeFactors.

Lemma product_app (xs ys : list Z) : product (xs ++ ys) = product xs * product ys.
Proof.
  induction xs as [|x xs IH]; simpl; [destruct (product ys); reflexivity|].
  unfold product in *. simpl. rewrite IH. ring.
Qed.

Lemma last_In (xs : list Z) (d : Z) : xs <> [] -> In (last xs d) xs.
Proof.
  intros Hne. destruct (exists_last Hne) as (ys & a & ->).
  rewrite last_last. apply in_or_app. right. left. reflexivity.
Qed.

Lemma mayPush_false (result : list Z) (value : Z) :
  mayPush result value = false -> result <> [] /\ last result 0 = value.
Proof.
  unfold mayPush. destruct result as [|a result]; [discriminate|].
  intros H. split; [discriminate|].
  apply Bool.negb_false_iff in H. apply Z.eqb_eq in H. exact H.
Qed.

Lemma StronglySorted_snoc (xs : list Z) (a : Z) :
  StronglySorted Z.le xs -> (forall x, In x xs -> x <= a) ->
  StronglySorted Z.le (xs ++ [a]).
Proof.
  induction 1 as [|x xs Hs IH Hx]; intros Ha; simpl.
  - repeat constructor.
  - constructor; [apply IH; intros; apply Ha; right; assumption|].
    apply Forall_app. split; [exact Hx|].
    constructor; [apply Ha; left; reflexivity|constructor].
Qed.

Lemma rem_exact (value q : Z) :
  0 < q -> Z.rem value q = 0 -> value = q * (Z.quot value q) /\ (q | value).
Proof.
  intros Hq Hr. split.
  - apply Z.quot_exact; [lia|exact Hr].
  - apply Z.rem_divide; [lia|exact Hr].
Qed.

(** [primeFactors] gives a list on positive values only. *)
Lemma primeFactors_positive fuel : forall value existingFactors factors,
  primeFactors fuel value existingFactors = Normal (Some factors) ->
  1 <= value.
Proof.
  induction fuel as [|fuel IH]; intros value acc r; simpl; [discriminate|].
  destruct (Z.eqb_spec value 1) as [->|H1]; [lia|].
  destruct (isPrime value) eqn:Hip.
  { intros _. pose proof (Z.prime_ge_2 _ (isPrime_sound _ Hip)). lia. }
  destruct (firstDivisor fuel fuel _ value) as [[q|]| |] eqn:E; simpl;
    try discriminate.
  intros Hrec. apply IH in Hrec.
  destruct (firstDivisor_partial _ _ _ (primeGenerator _) _ I E) as (Hq & _ & Hr & _).
  pose proof (Z.prime_ge_2 _ Hq).
  destruct (rem_exact value q) as [Hv _]; [lia|exact Hr|]. nia.
Qed.

(** What [primeFactors] appends to the factors found so far. *)
Lemma primeFactors_partial fuel : forall value existingFactors factors,
  1 <= value -> Forall Z.prime existingFactors ->
  StronglySorted Z.le existingFactors -> below existingFactors value ->
  primeFactors fuel value existingFactors = Normal (Some factors) ->
  exists found,
    factors = existingFactors ++ found /\ Forall Z.prime found /\
    StronglySorted Z.le factors /\
    (product found = value \/
     (factors <> [] /\ product found * last factors 0 = value)).
Proof.
  induction fuel as [|fuel IH]; intros value acc r Hpos Hacc Hsorted Hbelow;
    simpl; [discriminate|].
  destruct (Z.eqb_spec value 1) as [->|H1].
  { intros [= <-]. exists []. rewrite app_nil_r.
    split; [reflexivity|]. split; [constructor|]. split; [exact Hsorted|].
    left. reflexivity. }
  destruct (isPrime value) eqn:Hip.
  { pose proof (isPrime_sound _ Hip) as Hprime.
    destruct (mayPush acc value) eqn:Hpush; intros [= <-].
    - exists [value]. split; [reflexivity|].
      split; [constructor; [exact Hprime|constructor]|]. split.
      + apply StronglySorted_snoc; [exact Hsorted|].
        intros x Hx. apply (Hbelow x value Hx Hprime). apply Z.divide_refl.
      + left. simpl. lia.
    - apply mayPush_false in Hpush. destruct Hpush as [Hne Hlast].
      exists []. rewrite app_nil_r. split; [reflexivity|].
      split; [constructor|]. split; [exact Hsorted|].
      right. split; [exact Hne|]. change (product []) with 1. lia. }
  destruct (firstDivisor fuel fuel _ value) as [[q|]| |] eqn:E; simpl;
    try discriminate.
  destruct (firstDivisor_partial _ _ _ (primeGenerator _) _ I E) as (Hq & _ & Hr & Hleast).
  pose proof (Z.prime_ge_2 _ Hq) as Hq2.
  destruct (rem_exact value q) as [Hv Hdiv]; [lia|exact Hr|].
  assert (Hpos' : 1 <= Z.quot value q) by nia.
  assert (Hsub : forall t, (t | Z.quot value q) -> (t | value)).
  { intros t Ht. rewrite Hv. apply Z.divide_mul_r. exact Ht. }
  destruct (mayPush acc value) eqn:Hpush.
  - intros Hrec.
    destruct (IH (Z.quot value q) (acc ++ [q]) r) as (s & Hs1 & Hs2 & Hs3 & Hs4);
      try assumption.
    + apply Forall_app. split; [exact Hacc|constructor; [exact Hq|constructor]].
    + apply StronglySorted_snoc; [exact Hsorted|].
      intros x Hx. apply (Hbelow x q Hx Hq Hdiv).
    + intros a t Ha Ht Hdt. apply in_app_or in Ha.
      destruct Ha as [Ha|[<-|[]]].
      * apply (Hbelow a t Ha Ht). apply Hsub. exact Hdt.
      * destruct (Z_le_gt_dec q t) as [Hle|Hgt]; [exact Hle|exfalso].
        apply (Hleast t Ht); [simpl; pose proof (Z.prime_ge_2 _ Ht); lia|].
        apply Z.rem_divide; [pose proof (Z.prime_ge_2 _ Ht); lia|].
        apply Hsub. exact Hdt.
    + exists (q :: s). rewrite <- app_assoc in Hs1.
      split; [exact Hs1|]. split; [constructor; assumption|].
      split; [exact Hs3|].
      change (product (q :: s)) with (q * product s).
      destruct Hs4 as [Hs4|[Hne Hs4]]; [left|right; split; [exact Hne|]].
      * rewrite Hs4. symmetry. exact Hv.
      * rewrite <- Z.mul_assoc, Hs4. symmetry. exact Hv.
  - apply mayPush_false in Hpush. destruct Hpush as [Hne Hlast].
    assert (Hqv : q = value).
    { pose proof (Hbelow (last acc 0) q (last_In acc 0 Hne) Hq Hdiv).
      assert (q <= value) by (apply Z.divide_pos_le; [lia|exact Hdiv]). lia. }
    assert (Hone : Z.quot value q = 1) by nia. rewrite Hone.
    destruct fuel as [|fuel]; [discriminate|]. simpl. intros [= <-].
    exists []. rewrite app_nil_r. split; [reflexivity|].
    split; [constructor|]. split; [exact Hsorted|].
    right. split; [exact Hne|]. change (product []) with 1. lia.
Qed.

(** A search that meets no divisor finds none. *)
Lemma find_divisor_none (value : Z) (primes : list Z) :
  Forall (fun prime => Z.rem value prime <> 0) primes ->
  find (fun prime => Z.rem value prime =? 0) primes = None.
Proof.
  induction 1 as [|x xs Hx _ IH]; simpl; [reflexivity|].
  destruct (Z.eqb_spec (Z.rem value x) 0); [contradiction|exact IH].
Qed.

(** No prime below the prime [p] divides [p * p]. *)
Lemma square_no_small_divisor (p x : Z) :
  Z.prime p -> Z.prime x -> x < p -> Z.rem (p * p) x <> 0.
Proof.
  intros Hp Hx Hlt Hr. pose proof (Z.prime_ge_2 _ Hx).
  apply Z.rem_divide in Hr; [|lia].
  apply Z.divide_prime_mul in Hr; [|exact Hx].
  assert (x = p) by (destruct Hr; apply Z.divide_prime_prime; assumption).
  lia.
Qed.

Lemma In_divide_product (x : Z) (factors : list Z) :
  In x factors -> (x | product factors).
Proof.
  induction factors as [|a factors IH]; [intros []|];
    intros [<-|Hin]; change (product (?a :: ?l)) with (a * product l).
  - apply Z.divide_factor_l.
  - apply Z.divide_mul_r. apply IH. exact Hin.
Qed.

Lemma prime_divide_product (p : Z) (factors : list Z) :
  Z.prime p -> (p | product factors) -> exists x, In x factors /\ (p | x).
Proof.
  intros Hp. induction factors as [|a factors IH].
  - intros H. apply Z.divide_1_r_nonneg in H;
      pose proof (Z.prime_ge_2 _ Hp); lia.
  - change (product (a :: factors)) with (a * product factors). intros H.
    apply Z.divide_prime_mul in H; [|exact Hp].
    destruct H as [H|H].
    + exists a. split; [left; reflexivity|exact H].
    + destruct (IH H) as (x & Hin & Hx). exists x.
      split; [right; exact Hin|exact Hx].
Qed.

End PrimeFactors.

(** ** Runs of the generator *)

Section Runs.

Lemma turn_mono fuel fuel' maxValue value l r :
  turn fuel maxValue value l = Normal r -> (fuel <= fuel')%nat ->
  turn fuel' maxValue value l = Normal r.
Proof.
  unfold turn. destruct (sift fuel value l) as [r0| |] eqn:E; try discriminate.
  intros H Hle. rewrite (sift_mono _ _ _ _ _ E Hle). exact H.
Qed.

Lemma resume_mono fuel fuel' g r :
  resume fuel g = Normal r -> (fuel <= fuel')%nat -> resume fuel' g = Normal r.
Proof.
  destruct g; simpl; auto; intros; eapply turn_mono; eassumption.
Qed.

Lemma pull_mono n fuel fuel' : forall g r,
  pull n fuel g = Normal r -> (fuel <= fuel')%nat -> pull n fuel' g = Normal r.
Proof.
  induction n as [|n IH]; intros g r; simpl; [auto|].
  destruct (resume fuel g) as [[[q|] g1]| |] eqn:E; simpl; try discriminate;
    intros H Hle; rewrite (resume_mono _ _ _ _ E Hle); simpl; [|exact H].
  destruct (pull n fuel g1) as [r1| |] eqn:E1; simpl in *; try discriminate.
  rewrite (IH _ _ E1 Hle). exact H.
Qed.

Lemma take_mono n fuel fuel' g r :
  take n fuel g = Normal r -> (fuel <= fuel')%nat -> take n fuel' g = Normal r.
Proof.
  unfold take. destruct (pull n fuel g) as [r0| |] eqn:E; try discriminate.
  intros H Hle. rewrite (pull_mono _ _ _ _ _ E Hle). exact H.
Qed.

(** The first four calls of [next()] and the state they leave. *)
Lemma pull_seeds maxValue fuel :
  pull 4 fuel (primeGenerator maxValue)
  = Normal ([2; 3; 5; 7], Yield7 maxValue 11 seedGenerators).
Proof. reflexivity. Qed.

(** From the top of the loop, cursors at 3, 5 and 7 and candidate 11, the
    inner loop ends after six turns, on 11. *)
Lemma sift_first fuel :
  (6 <= fuel)%nat ->
  exists l, sift fuel 11 seedGenerators = Normal (11, l).
Proof.
  intros Hfuel. eexists. eapply sift_mono; [|exact Hfuel].
  vm_compute. reflexivity.
Qed.

Lemma StronglySorted_lt_NoDup (xs : list Z) : StronglySorted Z.lt xs -> NoDup xs.
Proof.
  induction 1 as [|x xs _ IH Hx]; constructor; [|exact IH].
  intros Hin. rewrite Forall_forall in Hx. specialize (Hx x Hin). lia.
Qed.

(** Without a bound, [next()] always gives a value. *)
Lemma resume_unbounded g :
  gen_inv g -> g <> Returned -> limit g = None ->
  exists N q g',
    (forall fuel, (N <= fuel)%nat -> resume fuel g = Normal (Some q, g')) /\
    g' <> Returned /\ limit g' = None.
Proof.
  intros Hinv Hlive Hlim.
  destruct g as [m|m v l|m v l|m v l|m v l|m v l|]; simpl in Hlim;
    try congruence; subst m.
  1-4: exists 0%nat; eexists; eexists; split;
       [intros fuel _; reflexivity|split; [discriminate|reflexivity]].
  all: match goal with |- context [resume _ ?g] =>
         destruct (resume_in_loop g Hinv I) as (value & l' & Hres & H1 & H2 & _)
       end;
       destruct (turn_total None value l' H1 H2) as (N & p & l2 & _ & _ & _ & Ht);
       exists N, p, (YieldValue None p l2);
       (split; [intros fuel Hfuel; rewrite Hres; apply Ht; exact Hfuel|]);
       split; [discriminate|reflexivity].
Qed.

(** Without a bound, [n] calls of [next()] give the [n] primes from
    [lower g] on, in ascending order. *)
Lemma pull_unbounded (n : nat) : forall g,
  gen_inv g -> g <> Returned -> limit g = None ->
  exists N out g',
    (forall fuel, (N <= fuel)%nat -> pull n fuel g = Normal (out, g')) /\
    length out = n /\ StronglySorted Z.lt out /\ lower g <= lower g' /\
    (forall x, In x out <-> Z.prime x /\ lower g <= x < lower g').
Proof.
  induction n as [|n IH]; intros g Hinv Hlive Hlim.
  - exists 0%nat, [], g. split; [reflexivity|]. split; [reflexivity|].
    split; [constructor|]. split; [lia|].
    intros x. simpl. split; [tauto|lia].
  - destruct (resume_unbounded g Hinv Hlive Hlim)
      as (N1 & q & g1 & Hres & Hlive1 & Hlim1).
    destruct (resume_partial _ _ _ _ Hinv (Hres N1 (Nat.le_refl N1)))
      as (Hinv1 & (Hq1 & Hq2 & Hq3) & Hlow).
    destruct (IH g1 Hinv1 Hlive1 Hlim1)
      as (N2 & out & g' & Hpull & Hlen & Hsorted & Hle & Hin).
    exists (Nat.max N1 N2), (q :: out), g'.
    split; [|split; [simpl; lia|split; [|split; [lia|]]]].
    + intros fuel Hfuel. simpl. rewrite Hres by lia. simpl.
      rewrite Hpull by lia. reflexivity.
    + constructor; [exact Hsorted|]. apply Forall_forall.
      intros x Hx. apply Hin in Hx. lia.
    + intros x. simpl. rewrite Hin. split.
      * intros [<-|(Hx1 & Hx2)]; (split; [assumption|lia]).
      * intros (Hx1 & Hx2).
        destruct (Z.eq_dec q x) as [E|E]; [left; exact E|right].
        split; [exact Hx1|].
        destruct (Z_lt_ge_dec x q) as [Hlt|Hge]; [|lia].
        exfalso. apply (Hq3 x); [lia|exact Hx1].
Qed.

Lemma prime_13 : Z.prime 13.
Proof. apply isPrime_correct; [lia|reflexivity]. Qed.

End Runs.

(** ** The claims of the specification *)

Section Claims.

Lemma numeric_antisymmetric : antisymmetric numeric.
Proof.
  intros a b. simpl. replace (a - b) with (- (b - a)) by lia.
  rewrite Z.sgn_opp. lia.
Qed.

Lemma numeric_transitive : transitive numeric.
Proof. intros a b d. simpl. lia. Qed.

Lemma numeric_separating : separating numeric.
Proof. intros a b. simpl. lia. Qed.

(** C1.  [primeGenerator(5)], run to its end, gives 2, 3, 5 and 7: the
    seeds are yielded before the bound is looked at, so 5 and 7 are given
    although they are not below the bound 5. *)
Theorem primeGenerator_bound_5 :
  forOf 5 6 (primeGenerator (Some (Num 5))) = Normal [2; 3; 5; 7]
  /\ ~ Forall (fun v => v < 5) [2; 3; 5; 7].
Proof.
  split; [reflexivity|].
  intros H. do 2 (apply Forall_inv_tail in H). apply Forall_inv in H. lia.
Qed.

(** C2.  [primeGenerator(0)] and [primeGenerator(2)], run to their end, give
    2, 3, 5 and 7 and not the empty sequence, although no prime is below
    the exclusive maximum: the four seeds are yielded before the bound is
    looked at, as in C1.  No error is raised. *)
Theorem primeGenerator_bound_0_2 :
  forOf 5 6 (primeGenerator (Some (Num 0))) = Normal [2; 3; 5; 7]
  /\ forOf 5 6 (primeGenerator (Some (Num 2))) = Normal [2; 3; 5; 7]
  /\ forOf 5 6 (primeGenerator (Some (Num 0))) <> Normal []
  /\ forOf 5 6 (primeGenerator (Some (Num 2))) <> Normal [].
Proof. repeat split; try reflexivity; discriminate. Qed.

(** C3, as stated, fails: [primeFactors(9, [])] is [[3]], whose product is
    not 9 and which does not hold 3 twice. *)
Lemma primeFactors_9 :
  primeFactors 6 9 [] = Normal (Some [3]) /\ product [3] <> 9.
Proof. split; [reflexivity|discriminate]. Qed.

(** C3, amended.  When [primeFactors(value, [])] ends with a list, the list
    is ascending and holds the prime factors of [value]: its elements are
    the primes that divide [value], each of them at least once, and the
    product of the list divides [value].  How often a prime factor is
    repeated is left open. *)
Theorem primeFactors_prime_factors (fuel : nat) (value : Z)
    (factors : list Z) :
  primeFactors fuel value [] = Normal (Some factors) ->
  StronglySorted Z.le factors /\
  (forall p, In p factors <-> Z.prime p /\ (p | value)) /\
  (product factors | value).
Proof.
  intros H. pose proof (primeFactors_positive _ _ _ _ H) as Hpos.
  assert (Hbelow : below [] value) by (intros a q []).
  destruct (primeFactors_partial fuel value [] factors Hpos
              (Forall_nil _) (SSorted_nil _) Hbelow H)
    as (found & Hf & Hprime & Hsorted & Hprod).
  simpl in Hf. subst found. rewrite Forall_forall in Hprime.
  assert (Hdiv : (product factors | value)).
  { destruct Hprod as [<-|[_ <-]];
      [apply Z.divide_refl|apply Z.divide_factor_l]. }
  split; [exact Hsorted|]. split; [|exact Hdiv].
  intros p. split.
  - intros Hin. split; [apply Hprime; exact Hin|].
    eapply Z.divide_trans; [apply In_divide_product; exact Hin|exact Hdiv].
  - intros [Hp Hpv].
    assert (Hpp : (p | product factors) \/
                  (factors <> [] /\ (p | last factors 0))).
    { destruct Hprod as [<-|[Hne <-]]; [left; exact Hpv|].
      apply Z.divide_prime_mul in Hpv; [|exact Hp].
      destruct Hpv; [left|right]; auto. }
    destruct Hpp as [Hpp|[Hne Hpp]].
    + destruct (prime_divide_product p factors Hp Hpp) as (x & Hin & Hx).
      apply Z.divide_prime_prime in Hx; [|exact Hp|apply Hprime; exact Hin].
      subst x. exact Hin.
    + pose proof (last_In factors 0 Hne) as Hlast.
      apply Z.divide_prime_prime in Hpp;
        [|exact Hp|apply Hprime; exact Hlast].
      subst p. exact Hlast.
Qed.

Lemma primeFactors_prime_factors_witness :
  StronglySorted Z.le [3; 5] /\
  (forall p, In p [3; 5] <-> Z.prime p /\ (p | 15)) /\
  (product [3; 5] | 15).
Proof. apply (primeFactors_prime_factors 8 15 [3; 5]). reflexivity. Defined.

(** C4.  [isPrime(3)] is false, although no integer of [[2, sqrt 3]]
    divides 3: the test [value % 3 == 0] rejects 3 itself. *)
Theorem isPrime_3 : isPrime 3 = false /\ trial_division 3.
Proof.
  split; [reflexivity|]. intros d Hd Hdd. nia.
Qed.

(** C5.  The first ten values of [primeGenerator] without a bound. *)
Theorem primeGenerator_first_10 (fuel : nat) :
  (8 <= fuel)%nat ->
  take 10 fuel (primeGenerator None)
  = Normal [2; 3; 5; 7; 11; 13; 17; 19; 23; 29].
Proof.
  intros Hfuel. eapply take_mono; [|exact Hfuel]. vm_compute. reflexivity.
Qed.

Lemma primeGenerator_first_10_witness :
  take 10 8 (primeGenerator None)
  = Normal [2; 3; 5; 7; 11; 13; 17; 19; 23; 29].
Proof. apply (primeGenerator_first_10 8). lia. Defined.

(** C6.  Whatever the bound, the first four calls of [next()] give 2, 3, 5
    and 7 and leave the generator at the top of its loop, and no later call
    gives any of 2, 3, 5, 7. *)
Theorem primeGenerator_seeds (maxValue : option JsNumber) (fuel : nat) :
  pull 4 fuel (primeGenerator maxValue)
  = Normal ([2; 3; 5; 7], Yield7 maxValue 11 seedGenerators)
  /\ forall n out g,
       pull n fuel (Yield7 maxValue 11 seedGenerators) = Normal (out, g) ->
       Forall (fun v => ~ In v [2; 3; 5; 7]) out.
Proof.
  split; [reflexivity|]. intros n out g H.
  assert (Hinv : gen_inv (Yield7 maxValue 11 seedGenerators))
    by (split; reflexivity).
  pose proof (pull_lower _ _ _ _ _ Hinv H) as Hlow.
  eapply Forall_impl; [|exact Hlow].
  simpl. intros v Hv Hin. intuition lia.
Qed.

Lemma primeGenerator_seeds_witness :
  pull 4 8 (primeGenerator (Some (Num 20)))
  = Normal ([2; 3; 5; 7], Yield7 (Some (Num 20)) 11 seedGenerators)
  /\ Forall (fun v => ~ In v [2; 3; 5; 7]) [11; 13; 17; 19].
Proof.
  destruct (primeGenerator_seeds (Some (Num 20)) 8) as [H1 H2].
  split; [exact H1|]. apply (H2 5%nat _ Returned). vm_compute. reflexivity.
Defined.

(** C7.  [insert] on a sorted chain returns a chain that holds the elements
    it held and the new value, and that is sorted: the comparator is not
    positive on two adjacent values. *)
Theorem insert_sorted {T : Type} (this : SortedLinkedList T) (newValue : T) :
  antisymmetric (getComparator this) ->
  sorted (getComparator this) this ->
  Permutation (elements (insert this newValue)) (newValue :: elements this)
  /\ sorted (getComparator this) (insert this newValue).
Proof.
  intros Hc Hs. split; [apply elements_insert|apply sorted_insert; assumption].
Qed.

Lemma insert_sorted_witness :
  Permutation
    (elements (insert (Node numeric 1 (Last numeric 3)) 2))
    [2; 1; 3]
  /\ sorted numeric (insert (Node numeric 1 (Last numeric 3)) 2).
Proof.
  apply (insert_sorted (Node numeric 1 (Last numeric 3)) 2).
  - apply numeric_antisymmetric.
  - simpl. lia.
Defined.

(** C8, as stated, fails.  With no value there is only [create(comparator)],
    whose one node reads [undefined], where sorting gives nothing.  And two
    values on which the comparator is zero are read in the order of their
    insertion: the two orders of insertion give two sequences, of which the
    sorted one is only one. *)
Lemma build_not_sort :
  (elements (build isNone None numericOrUndefined []) = [None]
   /\ sort numericOrUndefined [] = []
   /\ elements (build isNone None numericOrUndefined [])
        <> sort numericOrUndefined [])
  /\ (Permutation [(1, 0); (1, 1)] [(1, 1); (1, 0)]
      /\ elements (build isNotPair (0, 0) byKey [(1, 1); (1, 0)]) = [(1, 1); (1, 0)]
      /\ elements (build isNotPair (0, 0) byKey [(1, 0); (1, 1)]) = [(1, 0); (1, 1)]
      /\ sort byKey [(1, 0); (1, 1)] = [(1, 0); (1, 1)]
      /\ elements (build isNotPair (0, 0) byKey [(1, 1); (1, 0)])
           <> sort byKey [(1, 0); (1, 1)]).
Proof.
  split.
  - split; [reflexivity|]. split; [reflexivity|discriminate].
  - split; [apply perm_swap|]. repeat (split; [reflexivity|]). discriminate.
Qed.

(** C8, amended.  For a sequence of values that is not empty and any
    rearrangement of it: the container built by inserting the rearranged
    values, read from its head, agrees position by position with the sorted
    sequence up to values on which the comparator is zero, it is a
    rearrangement of the sorted sequence, and it is the sorted sequence when
    the comparator is zero on identical values only. *)
Theorem build_sort {T : Type} (isUndefined : T -> bool) (undefined : T)
  (c : Comparator T) (values values' : list T) :
  antisymmetric c -> transitive c -> values <> [] ->
  Permutation values values' ->
  Forall2 (fun x y => compare c x y = 0)
    (elements (build isUndefined undefined c values')) (sort c values)
  /\ Permutation (elements (build isUndefined undefined c values')) (sort c values)
  /\ (separating c -> elements (build isUndefined undefined c values') = sort c values).
Proof.
  intros Ha Ht Hne Hperm.
  assert (Hne' : values' <> []).
  { intros ->. apply Hne. apply Permutation_nil. symmetry. exact Hperm. }
  destruct (build_spec isUndefined undefined c values' Ha Hne') as [Hasc Hp].
  assert (Hps : Permutation (elements (build isUndefined undefined c values'))
                  (sort c values)).
  { rewrite Hp, <- Hperm. symmetry. apply sort_perm. }
  assert (H2 : Forall2 (fun x y => compare c x y = 0)
                 (elements (build isUndefined undefined c values')) (sort c values)).
  { apply ascending_unique_upto; auto using sort_ascending.
    exists (sort c values). split; [exact Hps|].
    apply Forall2_refl_zero. exact Ha. }
  split; [exact H2|]. split; [exact Hps|].
  intros Hsep. apply (Forall2_separating c); assumption.
Qed.

Lemma build_sort_witness :
  Forall2 (fun x y => compare numeric x y = 0)
    (elements (build isNotNumber 0 numeric [2; 3; 1])) (sort numeric [3; 1; 2])
  /\ Permutation (elements (build isNotNumber 0 numeric [2; 3; 1])) (sort numeric [3; 1; 2])
  /\ (separating numeric ->
      elements (build isNotNumber 0 numeric [2; 3; 1]) = sort numeric [3; 1; 2]).
Proof.
  apply (build_sort isNotNumber 0 numeric [3; 1; 2] [2; 3; 1]).
  - apply numeric_antisymmetric.
  - apply numeric_transitive.
  - discriminate.
  - apply Permutation_sym. apply (Permutation_cons_app [3; 1] [] 2).
    apply Permutation_refl.
Defined.

(** C9, as stated, fails: on the container that [create] builds from no
    value, [getValue()] returns [undefined] and raises nothing. *)
Lemma getValue_empty_create :
  invoke (Some (create isNone None numericOrUndefined [])) getValue = Normal None
  /\ forall e,
       invoke (Some (create isNone None numericOrUndefined [])) getValue <> Throw e.
Proof. split; [reflexivity|discriminate]. Qed.

(** C9, amended.  [getValue()] raises no error: it returns the value that
    the head node stores, which is [undefined] in the one-node container
    that [create] builds from no value. *)
Theorem getValue_create_nothing {T : Type} (isUndefined : T -> bool)
  (undefined : T) (c : Comparator T) :
  elements (create isUndefined undefined c []) = [undefined]
  /\ invoke (Some (create isUndefined undefined c [])) getValue
     = Normal undefined.
Proof. split; reflexivity. Qed.

(** C10.  For a prime [p] from 11 on, [primeFactors(p * p, ...)] finds
    [p * p] not prime, runs through [primeGenerator(p)], whose values do not
    hold [p] and do not divide [p * p], and returns [undefined]. *)
Theorem primeFactors_square (p : Z) :
  Z.prime p -> 11 <= p ->
  isPrime (p * p) = false /\ floor_sqrt (p * p) = Num p /\
  exists N primes,
    forall fuel, (N <= fuel)%nat ->
      forOf fuel fuel (primeGenerator (Some (floor_sqrt (p * p))))
        = Normal primes
      /\ ~ In p primes
      /\ Forall (fun prime => Z.rem (p * p) prime <> 0) primes
      /\ forall existingFactors,
           primeFactors (S fuel) (p * p) existingFactors = Normal None.
Proof.
  intros Hp H11.
  assert (Hip : isPrime (p * p) = false).
  { destruct (isPrime (p * p)) eqn:E; [|reflexivity].
    apply isPrime_sound in E. destruct (Z.not_prime_square p E). }
  assert (Hsqrt : floor_sqrt (p * p) = Num p)
    by (apply floor_sqrt_square; lia).
  split; [exact Hip|]. split; [exact Hsqrt|].
  destruct (forOf_primeGenerator p) as (N & out & H1 & H2 & H3).
  exists N, (2 :: 3 :: 5 :: 7 :: out).
  assert (Hnd : Forall (fun prime => Z.rem (p * p) prime <> 0)
                  (2 :: 3 :: 5 :: 7 :: out)).
  { repeat (constructor;
      [apply square_no_small_divisor;
       [exact Hp|auto using Z.prime_2, Z.prime_3, prime_5, prime_7|lia]|]).
    apply Forall_forall. intros x Hx. apply H3 in Hx.
    apply square_no_small_divisor; [exact Hp|tauto|lia]. }
  intros fuel Hfuel. rewrite Hsqrt.
  split; [apply H1; exact Hfuel|]. split; [|split; [exact Hnd|]].
  - simpl. intros [E|[E|[E|[E|Hin]]]]; try lia. apply H3 in Hin. lia.
  - intros acc. simpl.
    destruct (Z.eqb_spec (p * p) 1); [nia|]. rewrite Hip, Hsqrt.
    rewrite (firstDivisor_forOf _ _ _ _ _ (H1 fuel fuel Hfuel Hfuel)).
    rewrite (find_divisor_none _ _ Hnd). reflexivity.
Qed.

Lemma primeFactors_square_witness :
  isPrime (11 * 11) = false /\ floor_sqrt (11 * 11) = Num 11 /\
  exists N primes,
    forall fuel, (N <= fuel)%nat ->
      forOf fuel fuel (primeGenerator (Some (floor_sqrt (11 * 11))))
        = Normal primes
      /\ ~ In 11 primes
      /\ Forall (fun prime => Z.rem (11 * 11) prime <> 0) primes
      /\ forall existingFactors,
           primeFactors (S fuel) (11 * 11) existingFactors = Normal None.
Proof. apply (primeFactors_square 11); [apply prime_11|lia]. Defined.

(** ** Further properties *)

(** X1.  For a bound above 7, [primeGenerator(B)] run to its end gives primes
    below [B] only, in strictly ascending order, and every prime below [B]
    once. *)
Theorem primeGenerator_correct (B : Z) :
  7 < B ->
  exists N out,
    (forall n fuel, (N <= n)%nat -> (N <= fuel)%nat ->
       forOf n fuel (primeGenerator (Some (Num B))) = Normal out) /\
    Forall (fun v => Z.prime v /\ v < B) out /\
    StronglySorted Z.lt out /\
    (forall p, Z.prime p -> p < B -> count_occ Z.eq_dec out p = 1%nat).
Proof.
  intros HB. destruct (forOf_primeGenerator B) as (N & out & H1 & H2 & H3).
  exists N, (2 :: 3 :: 5 :: 7 :: out).
  assert (Hout : Forall (fun v => 11 <= v) out).
  { apply Forall_forall. intros x Hx. apply H3 in Hx. lia. }
  assert (Hsorted : StronglySorted Z.lt (2 :: 3 :: 5 :: 7 :: out)).
  { repeat (constructor;
      [|repeat (constructor; [lia|]);
        eapply Forall_impl; [|exact Hout]; simpl; intros; lia]).
    exact H2. }
  split; [exact H1|]. split; [|split; [exact Hsorted|]].
  - repeat (constructor;
      [split; [auto using Z.prime_2, Z.prime_3, prime_5, prime_7|lia]|]).
    apply Forall_forall. intros x Hx. apply H3 in Hx. split; [tauto|lia].
  - intros p Hp HpB.
    apply NoDup_count_occ'; [apply StronglySorted_lt_NoDup; exact Hsorted|].
    destruct (Z_lt_ge_dec p 11) as [Hlt|Hge].
    + simpl. destruct (primes_below_11 p Hp Hlt) as [E|[E|[E|E]]]; auto.
    + do 4 right. apply H3. split; [exact Hp|lia].
Qed.

Lemma primeGenerator_correct_witness :
  exists N out,
    (forall n fuel, (N <= n)%nat -> (N <= fuel)%nat ->
       forOf n fuel (primeGenerator (Some (Num 20))) = Normal out) /\
    Forall (fun v => Z.prime v /\ v < 20) out /\
    StronglySorted Z.lt out /\
    (forall p, Z.prime p -> p < 20 -> count_occ Z.eq_dec out p = 1%nat).
Proof. apply (primeGenerator_correct 20). lia. Defined.

(** X2.  Without a bound, the first [n] values of [primeGenerator] are [n]
    primes in strictly ascending order, with no prime left out between
    them or before them. *)
Theorem primeGenerator_unbounded (n : nat) :
  exists N out,
    (forall fuel, (N <= fuel)%nat ->
       take n fuel (primeGenerator None) = Normal out) /\
    length out = n /\ StronglySorted Z.lt out /\ Forall Z.prime out /\
    (forall p x, Z.prime p -> In x out -> p < x -> In p out).
Proof.
  destruct (pull_unbounded n (primeGenerator None) I)
    as (N & out & g' & Hpull & Hlen & Hsorted & Hle & Hin);
    [discriminate|reflexivity|].
  exists N, out. split; [|split; [exact Hlen|split; [exact Hsorted|split]]].
  - intros fuel Hfuel. unfold take. rewrite Hpull by exact Hfuel. reflexivity.
  - apply Forall_forall. intros x Hx. apply Hin in Hx. tauto.
  - intros p x Hp Hx Hlt. apply Hin in Hx. apply Hin.
    split; [exact Hp|]. pose proof (Z.prime_ge_2 p Hp). simpl in *. lia.
Qed.

(** X3.  [isPrime] is false below 2 and agrees with trial division from 2 on,
    except on 3. *)
Theorem isPrime_trial_division (value : Z) :
  (value < 2 -> isPrime value = false) /\
  (2 <= value -> value <> 3 ->
   (isPrime value = true <-> trial_division value)).
Proof.
  split.
  - intros Hlt. unfold isPrime. destruct (Z.ltb_spec value 2); [reflexivity|lia].
  - intros H2 H3. rewrite isPrime_correct by exact H3.
    apply prime_trial_division. exact H2.
Qed.

Lemma isPrime_trial_division_witness :
  (isPrime 0 = false) /\ (isPrime 7 = true <-> trial_division 7).
Proof.
  split.
  - apply (isPrime_trial_division 0). lia.
  - apply (isPrime_trial_division 7); lia.
Defined.

(** X4.  [primeFactors] also returns [undefined] on the product of two primes
    [p] and [p + 2] from 11 on and below 2^26 = 67108864, such as 143: the
    square root is floored to [p], which the generator bounded at [p] does
    not give. *)
Theorem primeFactors_twin (p : Z) :
  Z.prime p -> Z.prime (p + 2) -> 11 <= p < 67108864 ->
  floor_sqrt (p * (p + 2)) = Num p /\
  exists N, forall fuel existingFactors, (N <= fuel)%nat ->
    primeFactors (S fuel) (p * (p + 2)) existingFactors = Normal None.
Proof.
  intros Hp Hp2 H11.
  assert (Hsqrt : floor_sqrt (p * (p + 2)) = Num p).
  { rewrite floor_sqrt_small by nia. f_equal. apply Z.sqrt_unique. nia. }
  split; [exact Hsqrt|].
  assert (Hnp : ~ Z.prime (p * (p + 2))).
  { intros [_ H]. apply (H p); [nia|apply Z.divide_factor_l]. }
  assert (Hip : isPrime (p * (p + 2)) = false).
  { destruct (isPrime (p * (p + 2))) eqn:E; [|reflexivity].
    apply isPrime_sound in E. contradiction. }
  assert (Hsmall : forall x, Z.prime x -> x < p ->
            Z.rem (p * (p + 2)) x <> 0).
  { intros x Hx Hlt Hr. pose proof (Z.prime_ge_2 _ Hx).
    apply Z.rem_divide in Hr; [|lia].
    apply Z.divide_prime_mul in Hr; [|exact Hx].
    destruct Hr as [Hr|Hr]; apply Z.divide_prime_prime in Hr;
      try assumption; lia. }
  destruct (forOf_primeGenerator p) as (N & out & H1 & H2 & H3).
  exists N. intros fuel acc Hfuel. simpl.
  destruct (Z.eqb_spec (p * (p + 2)) 1); [nia|]. rewrite Hip, Hsqrt.
  rewrite (firstDivisor_forOf _ _ _ _ _ (H1 fuel fuel Hfuel Hfuel)).
  rewrite find_divisor_none; [reflexivity|].
  repeat (constructor;
    [apply Hsmall; [auto using Z.prime_2, Z.prime_3, prime_5, prime_7|lia]|]).
  apply Forall_forall. intros x Hx. apply H3 in Hx.
  apply Hsmall; [tauto|lia].
Qed.

Lemma primeFactors_twin_witness :
  floor_sqrt (11 * (11 + 2)) = Num 11 /\
  exists N, forall fuel existingFactors, (N <= fuel)%nat ->
    primeFactors (S fuel) (11 * (11 + 2)) existingFactors = Normal None.
Proof.
  apply (primeFactors_twin 11); [apply prime_11|apply prime_13|lia].
Defined.

(** X5.  The answer of Problem 3: [primeFactors(600851475143, [])], whose
    last element is 6857. *)
Theorem primeFactors_problem_3 :
  primeFactors 300 600851475143 [] = Normal (Some [71; 839; 1471; 6857]).
Proof. vm_compute. reflexivity. Qed.

End Claims.


(** ** More on the sorted linked list *)

Section ContainerUse.

Context {T : Type}.

Lemma uniform_link (c : Comparator T) (v : T) (values : list T) :
  uniform c (link c v values).
Proof.
  revert v. induction values as [|w ws IH]; intros v; simpl; auto.
Qed.

Lemma sorted_least (c : Comparator T) (l : SortedLinkedList T) (x : T) :
  antisymmetric c -> transitive c -> sorted c l -> In x (elements l) ->
  compare c (getValue l) x <= 0.
Proof.
  intros Ha Ht Hs Hin. apply sorted_ascending in Hs.
  destruct (getValue_head l) as [tl E]. rewrite E in *.
  destruct Hin as [<-|Hin]; [rewrite compare_refl; [lia|exact Ha]|].
  pose proof (ascending_least c _ _ Ht Hs) as H.
  rewrite Forall_forall in H. apply H. exact Hin.
Qed.

(** X6.  For a comparator that keeps its contract, [create] with at least
    one value gives a chain that holds the values given and nothing else,
    whose nodes all hold the comparator given, and that reads: the values
    that are not [undefined], ascending for the comparator, and behind them
    those that are [undefined].  With no [undefined] among the values the
    chain is sorted. *)
Theorem create_sorted (isUndefined : T -> bool) (undefined : T)
    (c : Comparator T) (values : list T) :
  antisymmetric c -> transitive c -> values <> [] ->
  Permutation (elements (create isUndefined undefined c values)) values
  /\ uniform c (create isUndefined undefined c values)
  /\ (exists defined undefineds,
        elements (create isUndefined undefined c values)
        = defined ++ undefineds
        /\ ascending c defined
        /\ Forall (fun v => isUndefined v = false) defined
        /\ Forall (fun v => isUndefined v = true) undefineds)
  /\ (Forall (fun v => isUndefined v = false) values ->
      sorted c (create isUndefined undefined c values)).
Proof.
  intros Ha _ Hne. split; [|split; [|split]].
  - rewrite elements_create by exact Hne. apply arraySort_perm.
  - unfold create. destruct (arraySort isUndefined c values);
      apply uniform_link.
  - rewrite elements_create by exact Hne. unfold arraySort.
    eexists. eexists. split; [reflexivity|].
    split; [apply sort_ascending; exact Ha|]. split.
    + apply Forall_forall. intros x Hx.
      eapply Permutation_in in Hx; [|apply sort_perm].
      apply filter_In in Hx. destruct Hx as [_ Hx].
      apply negb_true_iff. exact Hx.
    + apply Forall_forall. intros x Hx.
      apply filter_In in Hx. tauto.
  - intros Hdef. apply sorted_ascending.
    rewrite elements_create by exact Hne.
    rewrite arraySort_defined by exact Hdef.
    apply sort_ascending. exact Ha.
Qed.

(** X7.  After [insert] into a sorted chain, [getValue] gives a least
    element: the comparator is not positive from it to the new value or to
    any element that the chain held. *)
Theorem getValue_insert_least (this : SortedLinkedList T) (newValue x : T) :
  antisymmetric (getComparator this) -> transitive (getComparator this) ->
  sorted (getComparator this) this ->
  In x (newValue :: elements this) ->
  compare (getComparator this) (getValue (insert this newValue)) x <= 0.
Proof.
  intros Ha Ht Hs Hin. apply sorted_least; try assumption.
  - apply sorted_insert; assumption.
  - eapply Permutation_in; [symmetry; apply elements_insert|exact Hin].
Qed.

End ContainerUse.

Lemma undefinedFirst_antisymmetric : antisymmetric undefinedFirst.
Proof.
  intros [a|] [b|]; simpl; try reflexivity.
  replace (a - b) with (- (b - a)) by lia. rewrite Z.sgn_opp. lia.
Qed.

Lemma undefinedFirst_transitive : transitive undefinedFirst.
Proof. intros [a|] [b|] [d|]; simpl; lia. Qed.

Lemma create_sorted_witness :
  Permutation
    (elements (create isNone None undefinedFirst [None; Some 3; Some 1]))
    [None; Some 3; Some 1]
  /\ uniform undefinedFirst
       (create isNone None undefinedFirst [None; Some 3; Some 1])
  /\ (exists defined undefineds,
        elements (create isNone None undefinedFirst [None; Some 3; Some 1])
        = defined ++ undefineds
        /\ ascending undefinedFirst defined
        /\ Forall (fun v => isNone v = false) defined
        /\ Forall (fun v => isNone v = true) undefineds)
  /\ (Forall (fun v => isNone v = false) [None; Some 3; Some 1] ->
      sorted undefinedFirst
        (create isNone None undefinedFirst [None; Some 3; Some 1])).
Proof.
  apply (create_sorted isNone None undefinedFirst [None; Some 3; Some 1]);
    [apply undefinedFirst_antisymmetric|apply undefinedFirst_transitive
    |discriminate].
Defined.

(** [undefined] goes last even for a comparator that ranks it first, and
    the chain is then not sorted. *)
Lemma create_undefined_last :
  elements (create isNone None undefinedFirst [None; Some 3; Some 1])
  = [Some 1; Some 3; None]
  /\ ~ sorted undefinedFirst
        (create isNone None undefinedFirst [None; Some 3; Some 1]).
Proof.
  split; [reflexivity|]. simpl. intros (_ & H & _). lia.
Qed.

Lemma getValue_insert_least_witness :
  compare numeric (getValue (insert (Node numeric 2 (Last numeric 5)) 1)) 5 <= 0.
Proof.
  apply (getValue_insert_least (Node numeric 2 (Last numeric 5)) 1 5).
  - apply numeric_antisymmetric.
  - apply numeric_transitive.
  - simpl. lia.
  - simpl. auto.
Defined.

(** ** Cursors and multiples *)

Section Cursors.

Lemma bm_next_unbounded (g : MultipleGenerator) :
  bm_next (unbounded g)
  = (Some (fst (mg_next g)), unbounded (snd (mg_next g))).
Proof. destruct g; reflexivity. Qed.









End Cursors.

(** ** What the generator never does, and what it holds *)

Section GeneratorSafety.

Lemma sift_no_throw fuel : forall value l e,
  sieve_inv value l -> current (getValue l) <> value ->
  sift fuel value l <> Throw e.
Proof.
  induction fuel as [|fuel IH]; intros value l e Hinv Hne;
    rewrite sift_eq; destruct (Z.ltb_spec (current (getValue l)) value)
      as [Hlt|Hge]; try discriminate.
  destruct (sift_step value l Hinv Hlt) as (rest & -> & Hinv' & Hne' & _).
  simpl. apply IH; assumption.
Qed.

Lemma resume_no_throw fuel g e : gen_inv g -> resume fuel g <> Throw e.
Proof.
  intros Hinv.
  assert (Hloop : in_loop g -> resume fuel g <> Throw e).
  { intros Hl.
    destruct (resume_in_loop g Hinv Hl) as (value & l & -> & H1 & H2 & _).
    unfold turn. pose proof (sift_no_throw fuel value l e H1 H2) as Hs.
    destruct (sift fuel value l) as [[v' l']|e'|]; simpl;
      [destruct (passed _ _); discriminate| |discriminate].
    intros [= ->]. apply Hs. reflexivity. }
  destruct g; try (apply Hloop; exact I); simpl; discriminate.
Qed.

Lemma pull_no_throw n fuel : forall g e,
  gen_inv g -> pull n fuel g <> Throw e.
Proof.
  induction n as [|n IH]; intros g e Hinv; simpl; [discriminate|].
  pose proof (resume_no_throw fuel g e Hinv) as Hr.
  destruct (resume fuel g) as [[[q|] g1]|e'|] eqn:E; simpl;
    try discriminate; [|intros [= ->]; apply Hr; reflexivity].
  destruct (resume_partial _ _ _ _ Hinv E) as [Hinv1 _].
  pose proof (IH g1 e Hinv1) as Hp.
  destruct (pull n fuel g1) as [r|e'|]; simpl; try discriminate.
  intros [= ->]. apply Hp. reflexivity.
Qed.

Lemma forOf_no_throw n fuel : forall g e,
  gen_inv g -> forOf n fuel g <> Throw e.
Proof.
  induction n as [|n IH]; intros g e Hinv; simpl; [discriminate|].
  pose proof (resume_no_throw fuel g e Hinv) as Hr.
  destruct (resume fuel g) as [[[q|] g1]|e'|] eqn:E; simpl;
    try discriminate; [|intros [= ->]; apply Hr; reflexivity].
  destruct (resume_partial _ _ _ _ Hinv E) as [Hinv1 _].
  pose proof (IH g1 e Hinv1) as Hp.
  destruct (forOf n fuel g1) as [r|e'|]; simpl; try discriminate.
  intros [= ->]. apply Hp. reflexivity.
Qed.

Lemma firstDivisor_no_throw n fuel value : forall g e,
  gen_inv g -> firstDivisor n fuel g value <> Throw e.
Proof.
  induction n as [|n IH]; intros g e Hinv; simpl; [discriminate|].
  pose proof (resume_no_throw fuel g e Hinv) as Hr.
  destruct (resume fuel g) as [[[q|] g1]|e'|] eqn:E; simpl;
    try discriminate; [|intros [= ->]; apply Hr; reflexivity].
  destruct (resume_partial _ _ _ _ Hinv E) as [Hinv1 _].
  destruct (_ =? 0); [discriminate|]. apply IH. exact Hinv1.
Qed.

(** X11.  [primeGenerator] ends in no [TypeError], whatever its bound and
    however many values are asked of it: where the loop calls [insert] on
    [getNext()], the chain has a second node. *)
Theorem primeGenerator_never_throws (maxValue : option JsNumber)
  (n fuel : nat) (e : JsError) :
  pull n fuel (primeGenerator maxValue) <> Throw e
  /\ forOf n fuel (primeGenerator maxValue) <> Throw e.
Proof.
  split; [apply pull_no_throw|apply forOf_no_throw]; exact I.
Qed.

(** X12.  [primeFactors] never calls a method on [undefined], whatever its
    arguments: it ends in no [TypeError]. *)
Theorem primeFactors_never_throws (fuel : nat) : forall value existingFactors e,
  primeFactors fuel value existingFactors <> Throw e.
Proof.
  induction fuel as [|fuel IH]; intros value acc e; simpl; [discriminate|].
  destruct (value =? 1); [discriminate|].
  destruct (isPrime value); [discriminate|].
  pose proof (firstDivisor_no_throw fuel fuel value
                (primeGenerator (Some (floor_sqrt value))) e I) as Hd.
  destruct (firstDivisor fuel fuel _ value) as [[q|]|e'|]; simpl;
    try discriminate; [apply IH|].
  intros [= ->]. apply Hd. reflexivity.
Qed.

Lemma sift_length fuel : forall value l value' l',
  sift fuel value l = Normal (value', l') ->
  length (elements l') = length (elements l).
Proof.
  induction fuel as [|fuel IH]; intros value l value' l';
    rewrite sift_eq; destruct (_ <? _); try discriminate;
    try (intros [= <- <-]; reflexivity).
  destruct l as [k c|k c rest]; simpl; [discriminate|].
  intros H. apply IH in H. rewrite H.
  rewrite (Permutation_length (elements_insert rest (next c))). reflexivity.
Qed.

Lemma resume_given fuel g q g' :
  seeded g -> resume fuel g = Normal (Some q, g') ->
  seeded g' /\ given g' = S (given g).
Proof.
  assert (Hturn : forall m v l, turn fuel m v l = Normal (Some q, g') ->
            seeded g' /\ given g' = (2 + length (elements l))%nat).
  { intros m v l. unfold turn.
    destruct (sift fuel v l) as [[v' l']| |] eqn:E; simpl; try discriminate.
    apply sift_length in E. destruct (passed m v'); intros [= <- <-].
    simpl. rewrite E. auto. }
  destruct g as [m|m v l|m v l|m v l|m v l|m v l|]; simpl; intros Hs H.
  - injection H as _ <-. simpl. auto.
  - injection H as _ <-. simpl. auto.
  - injection H as _ <-. simpl. auto.
  - injection H as _ <-. simpl. auto.
  - apply Hturn in H. rewrite Hs in H. exact H.
  - apply Hturn in H.
    rewrite (Permutation_length (elements_insert l _)) in H. simpl in H.
    destruct H as [H1 H2]. split; [exact H1|]. rewrite H2. reflexivity.
  - discriminate.
Qed.

Lemma resume_done fuel g g' :
  resume fuel g = Normal (None, g') -> g' = Returned.
Proof.
  assert (Hturn : forall m v l, turn fuel m v l = Normal (None, g') ->
            g' = Returned).
  { intros m v l. unfold turn.
    destruct (sift fuel v l) as [[v' l']| |]; simpl; try discriminate.
    destruct (passed m v'); intros [= <-]. reflexivity. }
  destruct g as [m|m v l|m v l|m v l|m v l|m v l|]; simpl;
    try discriminate; try apply Hturn.
  intros [= <-]. reflexivity.
Qed.

Lemma pull_gen_inv n fuel : forall g out g',
  gen_inv g -> pull n fuel g = Normal (out, g') -> gen_inv g'.
Proof.
  induction n as [|n IH]; intros g out g' Hinv; simpl.
  - intros [= <- <-]. exact Hinv.
  - destruct (resume fuel g) as [[[q|] g1]| |] eqn:E; simpl;
      try discriminate;
      destruct (resume_partial _ _ _ _ Hinv E) as [Hinv1 _].
    + destruct (pull n fuel g1) as [[out1 g2]| |] eqn:E1; simpl;
        try discriminate.
      intros [= <- <-]. eapply IH; eassumption.
    + intros [= <- <-]. exact Hinv1.
Qed.

Lemma pull_given n fuel : forall g out g',
  seeded g -> pull n fuel g = Normal (out, g') -> g' <> Returned ->
  given g' = (given g + length out)%nat.
Proof.
  induction n as [|n IH]; intros g out g' Hs; simpl.
  - intros [= <- <-] _. simpl. lia.
  - destruct (resume fuel g) as [[[q|] g1]| |] eqn:E; simpl; try discriminate.
    + destruct (resume_given _ _ _ _ Hs E) as [Hs1 Hg].
      destruct (pull n fuel g1) as [[out1 g2]| |] eqn:E1; simpl;
        try discriminate.
      intros [= <- <-] Hlive. rewrite (IH _ _ _ Hs1 E1 Hlive), Hg. simpl. lia.
    + intros [= <- <-] Hlive. exfalso. apply Hlive.
      eapply resume_done. exact E.
Qed.

(** X13.  The generator keeps one cursor for each odd prime it has given
    but the last: suspended in its loop on the value [value], the [k]-th
    it gives, its chain holds [k - 2] cursors, each on the multiples of a
    prime from 3 on below [value], one at least for each such prime. *)
Theorem primeGenerator_cursors (maxValue m : option JsNumber) (n fuel : nat)
  (out : list Z) (value : Z) (l : SortedLinkedList ValuedIterator) :
  pull n fuel (primeGenerator maxValue) = Normal (out, YieldValue m value l) ->
  (length (elements l) + 2 = length out)%nat
  /\ Forall (fun c => Z.prime (base c) /\ 3 <= base c < value) (elements l)
  /\ (forall q, Z.prime q -> 3 <= q < value ->
        exists c, In c (elements l) /\ base c = q).
Proof.
  intros H.
  assert (Hg : given (YieldValue m value l)
               = (given (primeGenerator maxValue) + length out)%nat).
  { eapply pull_given; [exact I|exact H|discriminate]. }
  simpl in Hg. split; [lia|].
  pose proof (pull_gen_inv _ _ (primeGenerator maxValue) _ _ I H) as [Hinv _].
  destruct Hinv as (_ & _ & _ & _ & _ & Hok & Hall).
  split; [|exact Hall].
  eapply Forall_impl; [|exact Hok]. intros c (_ & Hp & Hb & _). auto.
Qed.

Lemma primeGenerator_cursors_witness :
  exists l,
    (length (elements l) + 2 = length [2; 3; 5; 7; 11; 13])%nat
    /\ Forall (fun c => Z.prime (base c) /\ 3 <= base c < 13) (elements l)
    /\ (forall q, Z.prime q -> 3 <= q < 13 ->
          exists c, In c (elements l) /\ base c = q).
Proof.
  eexists.
  apply (primeGenerator_cursors None None 6 8 [2; 3; 5; 7; 11; 13] 13).
  vm_compute. reflexivity.
Defined.

(** X25.  For a bound up to the first candidate 11, also 0 or a negative
    one, [primeGenerator], run to its end, gives the four seeds 2, 3, 5, 7
    and nothing else, and raises no error: the loop ends at its first test
    of the bound. *)
Theorem primeGenerator_seeds_only (B : Z) (n fuel : nat) :
  B <= 11 -> (5 <= n)%nat -> (6 <= fuel)%nat ->
  forOf n fuel (primeGenerator (Some (Num B))) = Normal [2; 3; 5; 7].
Proof.
  intros HB Hn Hfuel.
  do 5 (destruct n as [|n]; [lia|]). clear Hn.
  cbn [forOf primeGenerator resume bind].
  unfold turn. change (create _ _ _ _) with seedGenerators.
  destruct (sift_first fuel Hfuel) as [l ->]. cbn [bind].
  unfold passed. destruct (Z.leb_spec B 11); [reflexivity|lia].
Qed.

Lemma primeGenerator_seeds_only_witness :
  forOf 5 6 (primeGenerator (Some (Num 3))) = Normal [2; 3; 5; 7].
Proof. apply (primeGenerator_seeds_only 3 5 6); lia. Defined.

End GeneratorSafety.

(** ** primeFactors: termination *)

Section Termination.

Lemma resume_some_limit fuel g q g' :
  resume fuel g = Normal (Some q, g') ->
  limit g' = limit g /\ g' <> Returned.
Proof.
  assert (Hturn : forall m v l, turn fuel m v l = Normal (Some q, g') ->
            limit g' = m /\ g' <> Returned).
  { intros m v l. unfold turn.
    destruct (sift fuel v l) as [[v' l']| |]; simpl; try discriminate.
    destruct (passed m v'); intros [= <- <-].
    split; [reflexivity|discriminate]. }
  destruct g as [m|m v l|m v l|m v l|m v l|m v l|]; simpl;
    try apply Hturn; try discriminate;
    intros [= <- <-]; (split; [reflexivity|discriminate]).
Qed.

Lemma resume_none_limit fuel g g' :
  resume fuel g = Normal (None, g') ->
  g = Returned \/ exists B, limit g = Some (Num B).
Proof.
  assert (Hturn : forall m v l, turn fuel m v l = Normal (None, g') ->
            exists B, m = Some (Num B)).
  { intros m v l. unfold turn.
    destruct (sift fuel v l) as [[v' l']| |]; simpl; try discriminate.
    destruct m as [[|B]|]; simpl; try discriminate. eauto. }
  destruct g as [m|m v l|m v l|m v l|m v l|m v l|]; simpl;
    try discriminate; auto; intros H; right; eapply Hturn; exact H.
Qed.

(** A generator whose bound is [NaN] or is not given does not end. *)
Lemma firstDivisor_endless n fuel value : forall g,
  g <> Returned -> (forall B, limit g <> Some (Num B)) ->
  firstDivisor n fuel g value <> Normal None.
Proof.
  induction n as [|n IH]; intros g Hlive Hlim; simpl; [discriminate|].
  destruct (resume fuel g) as [[[q|] g1]| |] eqn:E; simpl; try discriminate.
  - destruct (resume_some_limit _ _ _ _ E) as [Hl Hr].
    destruct (_ =? 0); [discriminate|]. apply IH; [exact Hr|].
    rewrite Hl. exact Hlim.
  - destruct (resume_none_limit _ _ _ E) as [->|[B HB]];
      [contradiction|]. destruct (Hlim B HB).
Qed.

Lemma lastDivisor_endless n fuel value : forall g lastFactor r,
  g <> Returned -> (forall B, limit g <> Some (Num B)) ->
  Problem3Class.lastDivisor n fuel g value lastFactor <> Normal r.
Proof.
  induction n as [|n IH]; intros g acc r Hlive Hlim; simpl; [discriminate|].
  destruct (resume fuel g) as [[[q|] g1]| |] eqn:E; simpl; try discriminate.
  - destruct (resume_some_limit _ _ _ _ E) as [Hl Hr].
    apply IH; [exact Hr|]. rewrite Hl. exact Hlim.
  - destruct (resume_none_limit _ _ _ E) as [->|[B HB]];
      [contradiction|]. destruct (Hlim B HB).
Qed.

(** The [for ... of] loop of [primeFactors] over a bounded generator ends,
    on the first divisor among the values of the generator. *)
Lemma firstDivisor_total (value B : Z) :
  exists N primes,
    (forall fuel, (N <= fuel)%nat ->
       firstDivisor fuel fuel (primeGenerator (Some (Num B))) value
       = Normal (find (fun prime => Z.rem value prime =? 0) primes)) /\
    Forall (fun prime => 2 <= prime) primes.
Proof.
  destruct (forOf_primeGenerator B) as (N & out & H1 & _ & H3).
  exists N, (2 :: 3 :: 5 :: 7 :: out). split.
  - intros fuel Hfuel. apply firstDivisor_forOf. apply H1; exact Hfuel.
  - repeat (constructor; [lia|]). apply Forall_forall.
    intros x Hx. apply H3 in Hx. lia.
Qed.

(** X14.  [primeFactors] returns for every value from 1 on, whatever the
    factors found so far: a list or [undefined]. *)
Theorem primeFactors_terminates (value : Z) :
  1 <= value ->
  exists N, forall fuel existingFactors, (N <= fuel)%nat ->
    exists r, primeFactors fuel value existingFactors = Normal r.
Proof.
  intros Hv.
  assert (H : forall k, 0 <= k -> forall v, 1 <= v <= k ->
            exists N, forall fuel acc, (N <= fuel)%nat ->
              exists r, primeFactors fuel v acc = Normal r).
  { intros k Hk. pattern k. apply natlike_ind; [intros; lia| |exact Hk].
    clear. intros k Hk IH v Hv.
    destruct (Z.eq_dec v 1) as [->|H1].
    { exists 1%nat. intros [|fuel] acc Hfuel; [lia|]. simpl. eauto. }
    destruct (isPrime v) eqn:Hip.
    { exists 1%nat. intros [|fuel] acc Hfuel; [lia|]. simpl.
      destruct (Z.eqb_spec v 1); [contradiction|]. rewrite Hip. eauto. }
    destruct (floor_sqrt_bounds v) as (bound & Hfs & _); [lia|].
    destruct (firstDivisor_total v bound) as (N1 & primes & Hd & Hge).
    destruct (find (fun prime => Z.rem v prime =? 0) primes) as [q|] eqn:Hf.
    - destruct (find_some _ _ Hf) as [Hin Hr].
      apply Z.eqb_eq in Hr. rewrite Forall_forall in Hge.
      specialize (Hge q Hin).
      destruct (rem_exact v q) as [Hvq _]; [lia|exact Hr|].
      destruct (IH (Z.quot v q)) as [N2 H2]; [nia|].
      exists (S (Nat.max N1 N2)). intros [|fuel] acc Hfuel; [lia|]. simpl.
      destruct (Z.eqb_spec v 1); [contradiction|]. rewrite Hip, Hfs.
      rewrite Hd by lia. simpl. apply H2. lia.
    - exists (S N1). intros [|fuel] acc Hfuel; [lia|]. simpl.
      destruct (Z.eqb_spec v 1); [contradiction|]. rewrite Hip, Hfs.
      rewrite Hd by lia. simpl. eauto. }
  apply (H value); lia.
Qed.

Lemma primeFactors_terminates_witness :
  exists N, forall fuel existingFactors, (N <= fuel)%nat ->
    exists r, primeFactors fuel 12 existingFactors = Normal r.
Proof. apply (primeFactors_terminates 12). lia. Defined.

(** X15.  [primeFactors] does not return for a value that is not positive:
    on 0 it calls itself on 0 without end, and below 0 the bound of the
    generator is [NaN], so that its loop either finds a divisor and goes on
    with a negative quotient or never ends. *)
Theorem primeFactors_not_positive (fuel : nat) :
  forall value existingFactors r,
  value <= 0 -> primeFactors fuel value existingFactors <> Normal r.
Proof.
  induction fuel as [|fuel IH]; intros value acc r Hv; simpl; [discriminate|].
  destruct (Z.eqb_spec value 1); [lia|].
  destruct (isPrime value) eqn:Hip.
  { pose proof (Z.prime_ge_2 _ (isPrime_sound _ Hip)). lia. }
  destruct (firstDivisor fuel fuel _ value) as [[q|]| |] eqn:E; simpl;
    try discriminate.
  - destruct (firstDivisor_partial _ _ _ (primeGenerator _) _ I E)
      as (Hq & _ & Hr & _).
    pose proof (Z.prime_ge_2 _ Hq).
    destruct (rem_exact value q) as [Hvq _]; [lia|exact Hr|].
    apply IH. nia.
  - exfalso. destruct (Z.eq_dec value 0) as [->|Hne].
    + destruct fuel as [|fuel]; discriminate.
    + revert E. apply firstDivisor_endless; [discriminate|].
      intros B. rewrite floor_sqrt_negative by lia. discriminate.
Qed.

Lemma primeFactors_not_positive_witness :
  primeFactors 50 (-4) [] <> Normal None.
Proof. apply (primeFactors_not_positive 50 (-4) [] None). lia. Defined.

End Termination.

(** ** The two solutions of [class Problem3] *)

Section Problem3Solutions.

Lemma sorted_last_max (x : Z) (factors : list Z) :
  StronglySorted Z.le factors -> In x factors -> x <= last factors 0.
Proof.
  induction 1 as [|a factors Hs IH Ha]; intros Hin; [destruct Hin|].
  destruct factors as [|b factors].
  - destruct Hin as [<-|[]]. simpl. lia.
  - change (last (a :: b :: factors) 0) with (last (b :: factors) 0).
    destruct Hin as [<-|Hin]; [|apply IH; exact Hin].
    rewrite Forall_forall in Ha. apply Ha. apply last_In. discriminate.
Qed.

(** X16.  When [primeFactorTree] logs a number, it is the largest prime
    factor of [value]; it logs [undefined] for the value 1 only. *)
Theorem primeFactorTree_largest (fuel : nat) (value : Z) :
  (forall r, Problem3Class.primeFactorTreeOf fuel value = Normal (Some r) ->
     Z.prime r /\ (r | value) /\
     forall p, Z.prime p -> (p | value) -> p <= r)
  /\ (Problem3Class.primeFactorTreeOf fuel value = Normal None -> value = 1).
Proof.
  unfold Problem3Class.primeFactorTreeOf.
  destruct (primeFactors fuel value []) as [[factors|]| |] eqn:E; simpl;
    try (split; [intros r|]; discriminate).
  pose proof (primeFactors_positive _ _ _ _ E) as Hpos.
  assert (Hbelow : below [] value) by (intros a q []).
  destruct (primeFactors_partial fuel value [] factors Hpos
              (Forall_nil _) (SSorted_nil _) Hbelow E)
    as (found & Hf & Hprime & Hsorted & Hprod).
  simpl in Hf. subst found. split.
  - intros r Hr. destruct factors as [|a factors]; [discriminate|].
    injection Hr as <-. set (fs := a :: factors) in *.
    assert (Hne : fs <> []) by discriminate.
    pose proof (last_In fs 0 Hne) as Hlast.
    assert (Hpl : Z.prime (last fs 0)).
    { rewrite Forall_forall in Hprime. apply Hprime. exact Hlast. }
    assert (Hdiv : (product fs | value)).
    { destruct Hprod as [<-|[_ <-]];
        [apply Z.divide_refl|apply Z.divide_factor_l]. }
    split; [exact Hpl|]. split.
    + eapply Z.divide_trans; [apply In_divide_product; exact Hlast|exact Hdiv].
    + intros p Hp Hpv.
      assert (Hpp : (p | product fs) \/ (p | last fs 0)).
      { destruct Hprod as [<-|[_ <-]]; [left; exact Hpv|].
        apply Z.divide_prime_mul; assumption. }
      destruct Hpp as [Hpp|Hpp].
      * destruct (prime_divide_product p fs Hp Hpp) as (x & Hin & Hx).
        assert (p = x).
        { apply Z.divide_prime_prime; [exact Hp| |exact Hx].
          rewrite Forall_forall in Hprime. apply Hprime. exact Hin. }
        subst x. exact (sorted_last_max p fs Hsorted Hin).
      * apply Z.divide_prime_prime in Hpp; [|exact Hp|exact Hpl].
        subst p. change (last fs 0 <= last fs 0). lia.
  - intros Hr. destruct factors as [|a factors]; [|discriminate].
    destruct Hprod as [<-|[Hne _]]; [reflexivity|contradiction].
Qed.

Lemma primeFactorTree_largest_witness :
  Z.prime 29 /\ (29 | 13195) /\
  forall p, Z.prime p -> (p | 13195) -> p <= 29.
Proof.
  apply (proj1 (primeFactorTree_largest 20 13195) 29). vm_compute. reflexivity.
Defined.

(** For a prime [p] from 11 on, [primeFactors(p * p, ...)] is
    [undefined]. *)
Lemma primeFactors_square_none (p : Z) :
  Z.prime p -> 11 <= p ->
  exists N, forall fuel existingFactors, (N <= fuel)%nat ->
    primeFactors (S fuel) (p * p) existingFactors = Normal None.
Proof.
  intros Hp H11.
  assert (Hip : isPrime (p * p) = false).
  { destruct (isPrime (p * p)) eqn:E; [|reflexivity].
    apply isPrime_sound in E. destruct (Z.not_prime_square p E). }
  assert (Hsqrt : floor_sqrt (p * p) = Num p)
    by (apply floor_sqrt_square; lia).
  destruct (forOf_primeGenerator p) as (N & out & H1 & H2 & H3).
  exists N. intros fuel acc Hfuel. simpl.
  destruct (Z.eqb_spec (p * p) 1); [nia|]. rewrite Hip, Hsqrt.
  rewrite (firstDivisor_forOf _ _ _ _ _ (H1 fuel fuel Hfuel Hfuel)).
  rewrite find_divisor_none; [reflexivity|].
  repeat (constructor;
    [apply square_no_small_divisor;
     [exact Hp|auto using Z.prime_2, Z.prime_3, prime_5, prime_7|lia]|]).
  apply Forall_forall. intros x Hx. apply H3 in Hx.
  apply square_no_small_divisor; [exact Hp|tauto|lia].
Qed.

(** X17.  On the square of a prime from 11 on, [primeFactorTree] ends in a
    [TypeError]: [primeFactors] returns [undefined], and [pop] is called
    on it. *)
Theorem primeFactorTree_square (p : Z) :
  Z.prime p -> 11 <= p ->
  exists N, forall fuel, (N <= fuel)%nat ->
    Problem3Class.primeFactorTreeOf (S fuel) (p * p) = Throw TypeError.
Proof.
  intros Hp H11. destruct (primeFactors_square_none p Hp H11) as [N H].
  exists N. intros fuel Hfuel. unfold Problem3Class.primeFactorTreeOf.
  rewrite H by exact Hfuel. reflexivity.
Qed.

Lemma primeFactorTree_square_witness :
  exists N, forall fuel, (N <= fuel)%nat ->
    Problem3Class.primeFactorTreeOf (S fuel) (11 * 11) = Throw TypeError.
Proof. apply (primeFactorTree_square 11); [apply prime_11|lia]. Defined.

(** *** bruteForce *)

Lemma lastDivisor_forOf n fuel value : forall g out lastFactor,
  forOf n fuel g = Normal out ->
  Problem3Class.lastDivisor n fuel g value lastFactor
  = Normal (fold_left
              (fun last prime => if Z.rem value prime =? 0 then prime else last)
              out lastFactor).
Proof.
  induction n as [|n IH]; intros g out acc; simpl; [discriminate|].
  destruct (resume fuel g) as [[[q|] g1]| |]; simpl; try discriminate.
  - destruct (forOf n fuel g1) as [out1| |] eqn:E; simpl; try discriminate.
    intros [= <-]. simpl. apply IH. exact E.
  - intros [= <-]. reflexivity.
Qed.

(** The last divisor met in an ascending sequence is the largest. *)
Lemma fold_last_divisor (value : Z) (primes : list Z) :
  StronglySorted Z.lt primes -> forall lastFactor,
  let r := fold_left
             (fun last prime => if Z.rem value prime =? 0 then prime else last)
             primes lastFactor in
  (r = lastFactor /\ Forall (fun x => Z.rem value x <> 0) primes)
  \/ (In r primes /\ Z.rem value r = 0 /\
      forall x, In x primes -> Z.rem value x = 0 -> x <= r).
Proof.
  induction 1 as [|a primes Hs IH Ha]; intros acc; simpl.
  - left. split; [reflexivity|constructor].
  - rewrite Forall_forall in Ha.
    destruct (Z.eqb_spec (Z.rem value a) 0) as [E|E].
    + right. destruct (IH a) as [[-> Hnone]|(Hin & Hr & Hmax)].
      * split; [left; reflexivity|]. split; [exact E|].
        intros x [<-|Hx] Hrx; [lia|].
        rewrite Forall_forall in Hnone. destruct (Hnone x Hx Hrx).
      * split; [right; exact Hin|]. split; [exact Hr|].
        intros x [<-|Hx] Hrx; [specialize (Ha _ Hin); lia|auto].
    + destruct (IH acc) as [[-> Hnone]|(Hin & Hr & Hmax)].
      * left. split; [reflexivity|]. constructor; assumption.
      * right. split; [right; exact Hin|]. split; [exact Hr|].
        intros x [<-|Hx] Hrx; [contradiction|auto].
Qed.

(** What [bruteForce] logs. *)
Lemma bruteForce_largest_tried_aux (value : Z) :
  0 <= value ->
  exists N r,
    (forall fuel, (N <= fuel)%nat ->
       Problem3Class.bruteForceOf fuel value = Normal r) /\
    ((r = 0 /\ forall p, tried value p -> ~ (p | value))
     \/ (tried value r /\ (r | value) /\
         forall p, tried value p -> (p | value) -> p <= r)).
Proof.
  intros Hv.
  destruct (floor_sqrt_bounds value Hv) as (bound & Hfs & _).
  assert (Hmf : maxFactor value = bound) by (unfold maxFactor; now rewrite Hfs).
  destruct (forOf_primeGenerator bound) as (N & out & H1 & H2 & H3).
  set (primes := 2 :: 3 :: 5 :: 7 :: out) in *.
  assert (Hout : Forall (fun v => 11 <= v) out).
  { apply Forall_forall. intros x Hx. apply H3 in Hx. lia. }
  assert (Hsorted : StronglySorted Z.lt primes).
  { repeat (constructor;
      [|repeat (constructor; [lia|]);
        eapply Forall_impl; [|exact Hout]; simpl; intros; lia]).
    exact H2. }
  assert (Htried : forall p, In p primes <-> tried value p).
  { intros p. unfold primes, tried. rewrite Hmf. simpl. rewrite H3. split.
    - intros [<-|[<-|[<-|[<-|[Hp Hr]]]]].
      + split; [apply Z.prime_2|left; lia].
      + split; [apply Z.prime_3|left; lia].
      + split; [apply prime_5|left; lia].
      + split; [apply prime_7|left; lia].
      + split; [exact Hp|right; lia].
    - intros [Hp Hr]. destruct (Z_lt_ge_dec p 11) as [Hlt|Hge].
      + destruct (primes_below_11 p Hp Hlt) as [E|[E|[E|E]]]; auto.
      + do 4 right. split; [exact Hp|lia]. }
  assert (Hdiv : forall p, tried value p ->
            (Z.rem value p = 0 <-> (p | value))).
  { intros p [Hp _]. apply Z.rem_divide. pose proof (Z.prime_ge_2 _ Hp). lia. }
  exists N. eexists. split.
  - intros fuel Hfuel. unfold Problem3Class.bruteForceOf. rewrite Hfs.
    apply lastDivisor_forOf. apply H1; exact Hfuel.
  - destruct (fold_last_divisor value primes Hsorted 0)
      as [[-> Hnone]|(Hin & Hr & Hmax)].
    + left. split; [reflexivity|]. intros p Hp Hd.
      rewrite Forall_forall in Hnone.
      apply (Hnone p); [apply Htried; exact Hp|apply Hdiv; assumption].
    + right. apply Htried in Hin. split; [exact Hin|].
      split; [apply Hdiv; assumption|].
      intros p Hp Hd. apply Hmax; [apply Htried; exact Hp|].
      apply Hdiv; assumption.
Qed.

(** [maxFactor] is the integer square root, or one more; below
    2^52 = 4503599627370496 it is the integer square root. *)
Lemma maxFactor_bounds (value : Z) :
  0 <= value ->
  Z.sqrt value <= maxFactor value <= Z.sqrt value + 1 /\
  (value < 4503599627370496 -> maxFactor value = Z.sqrt value).
Proof.
  intros Hv.
  destruct (floor_sqrt_bounds value Hv) as (bound & Hfs & H1 & H2 & _).
  unfold maxFactor. rewrite Hfs. auto.
Qed.

(** X18.  [bruteForce] on a value from 0 on ends, and logs the largest of
    the primes tried (2, 3, 5, 7 and the primes below [maxFactor]) that
    divide [value], or 0 when none does.  [maxFactor], the floor of the
    rounded square root, is the integer square root of [value] or one
    more, and the integer square root when [value] is below 2^52. *)
Theorem bruteForce_largest_tried (value : Z) :
  0 <= value ->
  (exists N r,
     (forall fuel, (N <= fuel)%nat ->
        Problem3Class.bruteForceOf fuel value = Normal r) /\
     ((r = 0 /\ forall p, tried value p -> ~ (p | value))
      \/ (tried value r /\ (r | value) /\
          forall p, tried value p -> (p | value) -> p <= r)))
  /\ Z.sqrt value <= maxFactor value <= Z.sqrt value + 1
  /\ (value < 4503599627370496 -> maxFactor value = Z.sqrt value).
Proof.
  intros Hv. split; [apply bruteForce_largest_tried_aux; exact Hv|].
  apply maxFactor_bounds. exact Hv.
Qed.

Lemma bruteForce_largest_tried_witness :
  (exists N r,
     (forall fuel, (N <= fuel)%nat ->
        Problem3Class.bruteForceOf fuel 26 = Normal r) /\
     ((r = 0 /\ forall p, tried 26 p -> ~ (p | 26))
      \/ (tried 26 r /\ (r | 26) /\
          forall p, tried 26 p -> (p | 26) -> p <= r)))
  /\ Z.sqrt 26 <= maxFactor 26 <= Z.sqrt 26 + 1
  /\ (26 < 4503599627370496 -> maxFactor 26 = Z.sqrt 26).
Proof. apply (bruteForce_largest_tried 26). lia. Defined.

(** X19.  [bruteForce] does not end on a negative value: the bound of the
    generator is [NaN], which no candidate reaches. *)
Theorem bruteForce_negative (fuel : nat) (value r : Z) :
  value < 0 -> Problem3Class.bruteForceOf fuel value <> Normal r.
Proof.
  intros Hv. unfold Problem3Class.bruteForceOf.
  apply lastDivisor_endless; [discriminate|].
  intros B. rewrite floor_sqrt_negative by lia. discriminate.
Qed.

Lemma bruteForce_negative_witness :
  Problem3Class.bruteForceOf 50 (-4) <> Normal 2.
Proof. apply (bruteForce_negative 50 (-4) 2). lia. Defined.

Lemma prime_factor_of_four (a b c d p : Z) :
  Z.prime a -> Z.prime b -> Z.prime c -> Z.prime d -> Z.prime p ->
  (p | a * b * c * d) -> p = a \/ p = b \/ p = c \/ p = d.
Proof.
  intros Ha Hb Hc Hd Hp H.
  apply Z.divide_prime_mul in H; [|exact Hp]. destruct H as [H|H].
  - apply Z.divide_prime_mul in H; [|exact Hp]. destruct H as [H|H].
    + apply Z.divide_prime_mul in H; [|exact Hp]. destruct H as [H|H].
      * left. apply Z.divide_prime_prime; assumption.
      * right. left. apply Z.divide_prime_prime; assumption.
    + right. right. left. apply Z.divide_prime_prime; assumption.
  - right. right. right. apply Z.divide_prime_prime; assumption.
Qed.

(** X20.  [bruteForce()] on the value of the class, 600851475143, ends and
    logs 6857. *)
Theorem bruteForce_problem_3 :
  exists N, forall fuel, (N <= fuel)%nat ->
    Problem3Class.bruteForce fuel = Normal 6857.
Proof.
  assert (P71 : Z.prime 71) by (apply isPrime_correct; [lia|reflexivity]).
  assert (P839 : Z.prime 839) by (apply isPrime_correct; [lia|reflexivity]).
  assert (P1471 : Z.prime 1471) by (apply isPrime_correct; [lia|reflexivity]).
  assert (P6857 : Z.prime 6857) by (apply isPrime_correct; [lia|reflexivity]).
  assert (Hfour : forall p, Z.prime p -> (p | Problem3Class.value) ->
            p = 71 \/ p = 839 \/ p = 1471 \/ p = 6857).
  { intros p Hp Hd.
    apply (prime_factor_of_four 71 839 1471 6857); assumption. }
  assert (Ht : tried Problem3Class.value 6857).
  { split; [exact P6857|]. right. vm_compute. reflexivity. }
  assert (Hd : (6857 | Problem3Class.value)).
  { exists (71 * 839 * 1471). reflexivity. }
  destruct (bruteForce_largest_tried_aux Problem3Class.value)
    as (N & r & Hrun & Hr); [unfold Problem3Class.value; lia|].
  exists N. intros fuel Hfuel. unfold Problem3Class.bruteForce.
  rewrite Hrun by exact Hfuel. f_equal.
  destruct Hr as [[_ Hnone]|([Hp _] & Hrd & Hmax)].
  - destruct (Hnone 6857 Ht Hd).
  - specialize (Hmax 6857 Ht Hd).
    destruct (Hfour r Hp Hrd) as [E|[E|[E|E]]]; lia.
Qed.

(** *** Twin primes on both sides of 2^26 *)

Lemma twin_divisor (p x : Z) :
  Z.prime p -> Z.prime (p + 2) -> Z.prime x ->
  (Z.rem (p * (p + 2)) x = 0 <-> x = p \/ x = p + 2).
Proof.
  intros Hp Hp2 Hx. pose proof (Z.prime_ge_2 _ Hx).
  rewrite Z.rem_divide by lia. split.
  - intros Hd. apply Z.divide_prime_mul in Hd; [|exact Hx].
    destruct Hd as [Hd|Hd]; apply Z.divide_prime_prime in Hd; auto.
  - intros [->| ->]; [apply Z.divide_factor_l|apply Z.divide_factor_r].
Qed.

Lemma find_only (P : Z -> bool) (x : Z) (xs : list Z) :
  In x xs -> P x = true -> (forall y, In y xs -> P y = true -> y = x) ->
  find P xs = Some x.
Proof.
  induction xs as [|a xs IH]; intros Hin Hx Honly; [destruct Hin|].
  simpl. destruct (P a) eqn:E.
  - f_equal. apply Honly; [left; reflexivity|exact E].
  - destruct Hin as [->|Hin]; [congruence|].
    apply IH; [exact Hin|exact Hx|]. intros y Hy. apply Honly. right. exact Hy.
Qed.

(** X26.  On the product of two primes [p] and [p + 2] above 2^26 and with
    a product below 2^53, [primeFactors] returns the two primes: the
    rounded square root of [p * (p + 2)] is [p + 1], and the generator
    bounded at [p + 1] gives [p]. *)
Theorem primeFactors_twin_large (p : Z) :
  Z.prime p -> Z.prime (p + 2) ->
  67108864 <= p -> p * (p + 2) < 9007199254740992 ->
  floor_sqrt (p * (p + 2)) = Num (p + 1) /\
  exists N, forall fuel, (N <= fuel)%nat ->
    primeFactors (S (S fuel)) (p * (p + 2)) []
    = Normal (Some [p; p + 2]).
Proof.
  intros Hp Hp2 Hlow Hhigh.
  assert (Hsqrt : floor_sqrt (p * (p + 2)) = Num (p + 1)).
  { replace (p * (p + 2)) with ((p + 1) * (p + 1) - 1) by ring.
    apply floor_sqrt_round_up; lia. }
  split; [exact Hsqrt|].
  assert (Hnp : ~ Z.prime (p * (p + 2))).
  { intros [_ H]. apply (H p); [nia|apply Z.divide_factor_l]. }
  assert (Hip : isPrime (p * (p + 2)) = false).
  { destruct (isPrime (p * (p + 2))) eqn:E; [|reflexivity].
    apply isPrime_sound in E. contradiction. }
  assert (Hip2 : isPrime (p + 2) = true)
    by (apply isPrime_correct; [lia|exact Hp2]).
  destruct (forOf_primeGenerator (p + 1)) as (N & out & H1 & H2 & H3).
  exists N. intros fuel Hfuel.
  cbn [primeFactors].
  destruct (Z.eqb_spec (p * (p + 2)) 1); [nia|]. rewrite Hip, Hsqrt.
  rewrite (firstDivisor_forOf _ _ _ _ _
             (H1 (S fuel) (S fuel) ltac:(lia) ltac:(lia))).
  rewrite (find_only _ p).
  - cbn [bind mayPush app].
    replace (Z.quot (p * (p + 2)) p) with (p + 2)
      by (rewrite Z.mul_comm, Z.quot_mul; lia).
    destruct (Z.eqb_spec (p + 2) 1); [lia|]. rewrite Hip2.
    cbn [last]. destruct (Z.eqb_spec p (p + 2)); [lia|]. reflexivity.
  - do 4 right. apply H3. split; [exact Hp|lia].
  - apply Z.eqb_eq. apply twin_divisor; auto.
  - intros y Hy Hr. apply Z.eqb_eq in Hr.
    assert (Hyp : Z.prime y /\ y < p + 1).
    { destruct Hy as [<-|[<-|[<-|[<-|Hy]]]];
        [split; [apply Z.prime_2|lia]|split; [apply Z.prime_3|lia]
        |split; [apply prime_5|lia]|split; [apply prime_7|lia]|].
      apply H3 in Hy. split; [tauto|lia]. }
    destruct Hyp as [Hyp Hlt].
    apply twin_divisor in Hr; try assumption. lia.
Qed.

Lemma prime_67109321 : Z.prime 67109321.
Proof. apply isPrime_correct; [lia|vm_compute; reflexivity]. Qed.

Lemma prime_67109323 : Z.prime 67109323.
Proof. apply isPrime_correct; [lia|vm_compute; reflexivity]. Qed.

Lemma primeFactors_twin_large_witness :
  floor_sqrt (67109321 * (67109321 + 2)) = Num (67109321 + 1) /\
  exists N, forall fuel, (N <= fuel)%nat ->
    primeFactors (S (S fuel)) (67109321 * (67109321 + 2)) []
    = Normal (Some [67109321; 67109321 + 2]).
Proof.
  apply (primeFactors_twin_large 67109321);
    [apply prime_67109321|apply prime_67109323|lia|lia].
Defined.

(** X27.  On the product of two primes [p] and [p + 2] from 11 on,
    [bruteForce] logs 0 when [p] is below 2^26, and [p] when [p] is above
    2^26 and the product below 2^53: the bound of the generator is then
    [p + 1] and no longer [p]. *)
Theorem bruteForce_twin (p : Z) :
  Z.prime p -> Z.prime (p + 2) ->
  11 <= p -> p * (p + 2) < 9007199254740992 ->
  exists N, forall fuel, (N <= fuel)%nat ->
    Problem3Class.bruteForceOf fuel (p * (p + 2))
    = Normal (if p <? 67108864 then 0 else p).
Proof.
  intros Hp Hp2 H11 Hhigh.
  assert (Hmf : maxFactor (p * (p + 2))
                = if p <? 67108864 then p else p + 1).
  { unfold maxFactor. destruct (Z.ltb_spec p 67108864) as [Hlt|Hge].
    - rewrite floor_sqrt_small by nia.
      replace (Z.sqrt (p * (p + 2))) with p; [reflexivity|].
      symmetry. apply Z.sqrt_unique. nia.
    - replace (p * (p + 2)) with ((p + 1) * (p + 1) - 1) by ring.
      rewrite floor_sqrt_round_up; [reflexivity|lia|lia]. }
  assert (Htwin : forall x, tried (p * (p + 2)) x -> (x | p * (p + 2)) ->
            x = p /\ 67108864 <= p).
  { intros x [Hx Hr] Hd. pose proof (Z.prime_ge_2 _ Hx).
    apply Z.rem_divide in Hd; [|lia].
    apply twin_divisor in Hd; try assumption.
    rewrite Hmf in Hr. destruct (Z.ltb_spec p 67108864); lia. }
  destruct (bruteForce_largest_tried_aux (p * (p + 2)))
    as (N & r & Hrun & Hr); [nia|].
  exists N. intros fuel Hfuel. rewrite Hrun by exact Hfuel. f_equal.
  destruct Hr as [[-> Hnone]|(Ht & Hrd & _)].
  - destruct (Z.ltb_spec p 67108864) as [Hlt|Hge]; [reflexivity|].
    exfalso. apply (Hnone p); [|apply Z.divide_factor_l].
    split; [exact Hp|]. right. rewrite Hmf.
    destruct (Z.ltb_spec p 67108864); lia.
  - destruct (Htwin r Ht Hrd) as [-> Hge].
    destruct (Z.ltb_spec p 67108864); [lia|reflexivity].
Qed.

Lemma bruteForce_twin_witness :
  exists N, forall fuel, (N <= fuel)%nat ->
    Problem3Class.bruteForceOf fuel (67109321 * (67109321 + 2))
    = Normal (if 67109321 <? 67108864 then 0 else 67109321).
Proof.
  apply (bruteForce_twin 67109321);
    [apply prime_67109321|apply prime_67109323|lia|lia].
Defined.

End Problem3Solutions.

(** ** problem-4.ts *)

Section Problem4Facts.



Lemma differ_false (a b : option Ascii.ascii) :
  Problem4.differ a b = false <-> a = b.
Proof.
  destruct a as [x|], b as [y|]; simpl; split; try discriminate; auto.
  - intros H. apply Bool.negb_false_iff, Ascii.eqb_eq in H. congruence.
  - intros [= ->]. rewrite Ascii.eqb_refl. reflexivity.
Qed.

Lemma isPalindrome_loop_spec (n : nat) (s : list Ascii.ascii) : forall i,
  Problem4.isPalindrome_loop n s i = true <->
  (forall j, (i <= j < i + n)%nat ->
     nth_error s j = nth_error s (length s - j - 1)).
Proof.
  induction n as [|n IH]; intros i; cbn [Problem4.isPalindrome_loop].
  - split; [intros _ j Hj; lia|reflexivity].
  - destruct (Problem4.differ _ _) eqn:E.
    + split; [discriminate|]. intros H.
      assert (Hi : nth_error s i = nth_error s (length s - i - 1))
        by (apply H; lia).
      apply differ_false in Hi. congruence.
    + apply differ_false in E. rewrite IH. split; intros H j Hj.
      * destruct (Nat.eq_dec j i) as [->|Hne]; [exact E|]. apply H. lia.
      * apply H. lia.
Qed.

(** X22.  [isPalindrome] is true exactly when the decimal writing of the
    value reads the same from both ends: comparing the characters at [i]
    and at [length - i - 1] up to the middle is enough. *)
Theorem isPalindrome_reverse (value : Z) :
  Problem4.isPalindrome value = true <->
  rev (Problem4.toString value) = Problem4.toString value.
Proof.
  unfold Problem4.isPalindrome, Problem4.isPalindromeString.
  generalize (Problem4.toString value). intros s.
  rewrite isPalindrome_loop_spec.
  assert (Hhalf : (2 * (length s / 2) <= length s)%nat /\
                  (length s <= 2 * (length s / 2) + 1)%nat).
  { pose proof (Nat.div_mod_eq (length s) 2).
    pose proof (Nat.mod_upper_bound (length s) 2). lia. }
  split.
  - intros H. apply nth_error_ext. intros k. rewrite nth_error_rev.
    destruct (Nat.ltb_spec k (length s)) as [Hk|Hk];
      [|symmetry; apply nth_error_None; exact Hk].
    destruct (Nat.le_gt_cases k (length s / 2)) as [Hle|Hgt].
    + rewrite (H k) by lia. f_equal. lia.
    + rewrite (H (length s - S k)%nat) by lia. f_equal. lia.
  - intros H j Hj.
    destruct (Nat.ltb_spec j (length s)) as [Hlt|Hge].
    + rewrite <- H at 1. rewrite nth_error_rev.
      destruct (Nat.ltb_spec j (length s)); [|lia]. f_equal. lia.
    + assert (length s = 0%nat) by lia.
      destruct s; [|discriminate]. destruct j; reflexivity.
Qed.






(** X24.  [bruteForce()] with the [maxValue] of the class, 999, logs 90909,
    which is 999 * 91; the palindrome 906609, which is 993 * 913, is
    larger. *)
Theorem bruteForce_problem_4 :
  Problem4.bruteForce = 90909
  /\ 90909 = 999 * 91
  /\ Problem4.isPalindrome (993 * 913) = true
  /\ Problem4.bruteForce < 993 * 913.
Proof. vm_compute. repeat split; reflexivity. Qed.

End Problem4Facts.
